(** * A shallow embedding of the voice-chat SFU (src/user.go)

    Every handler of [user.go] is a function of the [Proc] monad below: a
    state monad over the process state [World] whose result also records
    how a Go function can end other than by returning (an unrecovered
    [panic], or [log.Fatalf]).  The media framework (pion/webrtc) and the
    JSON decoder are external: the framework is a record of result
    functions, [Framework], and every call the server makes on a peer
    connection is appended to that connection's call history.  A handler
    runs to its end on the state it finds; how the tasks of the server
    interleave is not part of the model. *)

From stdpp Require Import gmap strings list fin_maps.
From Stdlib Require Import ZArith NArith.

Local Open Scope string_scope.
Local Open Scope list_scope.

(** ** Go values *)

(** A Go [error].  [io.EOF] is a sentinel compared by identity
    ([err == io.EOF]); every other error only carries its message. *)
Inductive error :=
| io_EOF
| errors_New (msg : string).

#[global] Instance error_eq_dec : EqDecision error.
Proof. solve_decision. Defined.

(** [fmt.Sprint(err)] *)
Definition Sprint (e : error) : string :=
  match e with
  | io_EOF => "EOF"
  | errors_New msg => msg
  end.

Definition errChanClosed : error := errors_New "channel closed".
Definition errInvalidTrack : error := errors_New "track is nil".
Definition errInvalidPacket : error := errors_New "packet is nil".

(** ** The framework's data (github.com/pion/webrtc/v2, github.com/pion/rtp) *)

Module webrtc.

Inductive SDPType :=
| SDPTypeZero | SDPTypeOffer | SDPTypePranswer | SDPTypeAnswer | SDPTypeRollback.

Record SessionDescription := {
  sd_Type : SDPType;
  sd_SDP : string
}.

(** the zero value [webrtc.SessionDescription{}] *)
Definition SessionDescription_zero : SessionDescription :=
  {| sd_Type := SDPTypeZero; sd_SDP := "" |}.

Record ICECandidateInit := { Candidate : string }.

Record RTPCodec := {
  Name : string;
  PayloadType : N          (* uint8 *)
}.

Inductive RTPCodecType := RTPCodecTypeAudio | RTPCodecTypeVideo.

Inductive RTPTransceiverDirection :=
| RTPTransceiverDirectionSendrecv
| RTPTransceiverDirectionSendonly
| RTPTransceiverDirectionRecvonly
| RTPTransceiverDirectionInactive.

Inductive ICEConnectionState :=
| ICEConnectionStateNew
| ICEConnectionStateChecking
| ICEConnectionStateConnected
| ICEConnectionStateCompleted
| ICEConnectionStateDisconnected
| ICEConnectionStateFailed
| ICEConnectionStateClosed.

(** A [*webrtc.Track]: what [NewTrack(payloadType, ssrc, id, label)] was
    given, or what the remote peer announced. *)
Record Track := {
  track_PayloadType : N;   (* uint8 *)
  SSRC : N;                (* uint32 *)
  track_ID : string;
  track_Label : string
}.

Definition DefaultPayloadTypeOpus : N := 111.

#[global] Instance SDPType_eq_dec : EqDecision SDPType.
Proof. solve_decision. Defined.
#[global] Instance SessionDescription_eq_dec : EqDecision SessionDescription.
Proof. solve_decision. Defined.
#[global] Instance ICECandidateInit_eq_dec : EqDecision ICECandidateInit.
Proof. solve_decision. Defined.
#[global] Instance ICEConnectionState_eq_dec : EqDecision ICEConnectionState.
Proof. solve_decision. Defined.
#[global] Instance Track_eq_dec : EqDecision Track.
Proof. solve_decision. Defined.
#[global] Instance RTPCodecType_eq_dec : EqDecision RTPCodecType.
Proof. solve_decision. Defined.
#[global] Instance RTPTransceiverDirection_eq_dec :
  EqDecision RTPTransceiverDirection.
Proof. solve_decision. Defined.

End webrtc.

Module rtp.

(** A [*rtp.Packet], as far as the server looks at it. *)
Record Packet := {
  SSRC : N;                (* uint32 *)
  SequenceNumber : N;      (* uint16 *)
  Payload : list N         (* bytes *)
}.

#[global] Instance Packet_eq_dec : EqDecision Packet.
Proof. solve_decision. Defined.

End rtp.

(** Every operation the server invokes on a [*webrtc.PeerConnection] or on
    one of its local tracks. *)
Inductive PCCall :=
| pc_NewTrack (payloadType ssrc : N) (id label : string)
| pc_AddTrack (t : webrtc.Track)
| pc_AddTransceiver (kind : webrtc.RTPCodecType) (dir : webrtc.RTPTransceiverDirection)
| pc_SetRemoteDescription (d : webrtc.SessionDescription)
| pc_SetLocalDescription (d : webrtc.SessionDescription)
| pc_CreateOffer
| pc_CreateAnswer
| pc_AddICECandidate (c : webrtc.ICECandidateInit)
| track_WriteRTP (t : webrtc.Track) (pkt : rtp.Packet).

#[global] Instance PCCall_eq_dec : EqDecision PCCall.
Proof. solve_decision. Defined.

(** The framework, seen from the server: whether a call fails, given the
    calls already made on that connection; which description
    [CreateOffer]/[CreateAnswer] produce; and which audio codecs
    [MediaEngine.PopulateFromSDP] followed by [GetCodecsByKind(audio)]
    find in a description. *)
Record Framework := {
  fw_error : Z → list PCCall → PCCall → option error;
  fw_description : Z → list PCCall → webrtc.SDPType → webrtc.SessionDescription;
  fw_audioCodecs : webrtc.SessionDescription → list webrtc.RTPCodec
}.

(** ** The server's data (user.go) *)

(** [type Event struct]; the pointer fields are [None] when nil. *)
Record Event := {
  Type_ : string;
  Offer_ : option webrtc.SessionDescription;
  Answer_ : option webrtc.SessionDescription;
  Candidate_ : option webrtc.ICECandidateInit;
  Desc : string
}.

#[global] Instance Event_eq_dec : EqDecision Event.
Proof. solve_decision. Defined.

(** What [json.Unmarshal(eventRaw, &event)] leaves in [event]: an error,
    a nil pointer (the JSON text [null]), or a decoded record. *)
Inductive Unmarshalled :=
| UnmarshalError (e : error)
| UnmarshalNil
| UnmarshalEvent (ev : Event).

(** [type User struct].  [room] is the identifier of the Room the pointer
    refers to; [send] and [rtpCh] hold, oldest first, the values put on
    the two channels and not yet taken off ([rtpChClosed]: the channel was
    closed); [pc] is the history of calls made on the peer connection;
    [conn] is left to the websocket library.  A send on a full channel
    waits for the receiver: that delays the send and does not change what
    is sent, so the buffers carry no capacity here. *)
Record User := {
  ID : Z;
  room : string;
  send : list Event;
  pc : list PCCall;
  inTrack : option webrtc.Track;
  outTracks : gmap N webrtc.Track;
  rtpCh : list rtp.Packet;
  rtpChClosed : bool;
  stop : bool
}.

(** One argument of a [log.Println]/[log.Printf]/[fmt.Println] call. *)
Inductive Arg :=
| Str (s : string)
| Num (n : Z).

(** One line of output: through package [log] or on standard output. *)
Inductive Line :=
| LogLine (args : list Arg)
| OutLine (args : list Arg).

(** The process state: the User objects, by identifier; the Rooms of the
    registry with their members; and the output written so far. *)
Record World := {
  users : gmap Z User;
  rooms : gmap string (gset Z);
  output : list Line
}.

(** ** The monad of handlers *)

Inductive Outcome (A : Type) :=
| Ret (a : A) (w : World)          (* the function returned [a] *)
| Panic (e : error) (w : World)    (* unrecovered panic: the process dies *)
| Fatal (w : World).               (* log.Fatalf: the process exits *)
Arguments Ret {A} a w.
Arguments Panic {A} e w.
Arguments Fatal {A} w.

Definition Proc (A : Type) : Type := World → Outcome A.

Definition ret {A} (a : A) : Proc A := λ w, Ret a w.

Definition bind {A B} (m : Proc A) (k : A → Proc B) : Proc B :=
  λ w, match m w with
       | Ret a w' => k a w'
       | Panic e w' => Panic e w'
       | Fatal w' => Fatal w'
       end.

Definition panic {A} (e : error) : Proc A := λ w, Panic e w.

Declare Scope proc_scope.
Delimit Scope proc_scope with proc.
Notation "'let*' x ':=' m 'in' k" := (bind m (λ x, k))
  (at level 10, x name, m at level 100, k at level 200) : proc_scope.
Notation "m ';;' k" := (bind m (λ _, k))
  (at level 100, k at level 200, right associativity) : proc_scope.
Local Open Scope proc_scope.

(** the state the process is in when a handler ends, however it ends *)
Definition final {A} (o : Outcome A) : World :=
  match o with
  | Ret _ w | Panic _ w | Fatal w => w
  end.

(** the process is still running after the handler *)
Definition alive {A} (o : Outcome A) : bool :=
  match o with
  | Ret _ _ => true
  | _ => false
  end.

(** ** Field updates *)

Definition with_send (v : list Event) (x : User) : User :=
  {| ID := ID x; room := room x; send := v; pc := pc x; inTrack := inTrack x;
     outTracks := outTracks x; rtpCh := rtpCh x; rtpChClosed := rtpChClosed x;
     stop := stop x |}.

Definition with_pc (v : list PCCall) (x : User) : User :=
  {| ID := ID x; room := room x; send := send x; pc := v; inTrack := inTrack x;
     outTracks := outTracks x; rtpCh := rtpCh x; rtpChClosed := rtpChClosed x;
     stop := stop x |}.

Definition with_inTrack (v : option webrtc.Track) (x : User) : User :=
  {| ID := ID x; room := room x; send := send x; pc := pc x; inTrack := v;
     outTracks := outTracks x; rtpCh := rtpCh x; rtpChClosed := rtpChClosed x;
     stop := stop x |}.

Definition with_outTracks (v : gmap N webrtc.Track) (x : User) : User :=
  {| ID := ID x; room := room x; send := send x; pc := pc x; inTrack := inTrack x;
     outTracks := v; rtpCh := rtpCh x; rtpChClosed := rtpChClosed x;
     stop := stop x |}.

Definition with_rtpCh (v : list rtp.Packet) (x : User) : User :=
  {| ID := ID x; room := room x; send := send x; pc := pc x; inTrack := inTrack x;
     outTracks := outTracks x; rtpCh := v; rtpChClosed := rtpChClosed x;
     stop := stop x |}.

Definition with_stop (v : bool) (x : User) : User :=
  {| ID := ID x; room := room x; send := send x; pc := pc x; inTrack := inTrack x;
     outTracks := outTracks x; rtpCh := rtpCh x; rtpChClosed := rtpChClosed x;
     stop := v |}.

Definition with_users (v : gmap Z User) (w : World) : World :=
  {| users := v; rooms := rooms w; output := output w |}.

Definition with_rooms (v : gmap string (gset Z)) (w : World) : World :=
  {| users := users w; rooms := v; output := output w |}.

Definition with_output (v : list Line) (w : World) : World :=
  {| users := users w; rooms := rooms w; output := v |}.

(** ** Pointers, output *)

(** what the Go runtime panics with when a nil [*User] or [*Event] is
    dereferenced *)
Definition nilDereference : error :=
  errors_New "invalid memory address or nil pointer dereference".

(** read the User behind a pointer *)
Definition deref (u : Z) : Proc User :=
  λ w, match users w !! u with
       | Some x => Ret x w
       | None => Panic nilDereference w
       end.

(** assign through a pointer *)
Definition modify (u : Z) (f : User → User) : Proc unit :=
  let* x := deref u in
  λ w, Ret tt (with_users (<[u := f x]> (users w)) w).

(** [log.Println], [log.Printf], [fmt.Println] *)
Definition emit (l : Line) : Proc unit :=
  λ w, Ret tt (with_output (output w ++ [l]) w).

(** ** Rooms *)

(** Modelled from the spec: the Room and Rooms types that user.go calls
    ([GetOrCreate], [Join], [Leave], [GetUsers], [GetOtherUsers]) are not
    among the sources.  The spec: a Room is a set of Participants;
    join adds p; leave removes p and is idempotent; participants() is a
    snapshot of the current members; other participants(p) is a snapshot
    excluding p; get-or-create returns the Room for an identifier,
    creating it if absent. *)
Module Room.

Definition members (r : string) (w : World) : gset Z :=
  default ∅ (rooms w !! r).

Definition GetOrCreate (r : string) : Proc string :=
  λ w, match rooms w !! r with
       | Some _ => Ret r w
       | None => Ret r (with_rooms (<[r := ∅]> (rooms w)) w)
       end.

Definition Join (r : string) (u : Z) : Proc unit :=
  λ w, Ret tt (with_rooms (<[r := {[u]} ∪ members r w]> (rooms w)) w).

Definition Leave (r : string) (u : Z) : Proc unit :=
  λ w, Ret tt (with_rooms (alter (λ s, s ∖ {[u]}) r (rooms w)) w).

Definition GetUsers (r : string) : Proc (list Z) :=
  λ w, Ret (elements (members r w)) w.

Definition GetOtherUsers (r : string) (u : Z) : Proc (list Z) :=
  λ w, Ret (elements (members r w ∖ {[u]})) w.

End Room.

(** ** user.go *)

Section Server.

Context (fw : Framework).

(** *** Calls into the framework *)

(** a call on [u.pc] that returns an [error] *)
Definition call (u : Z) (c : PCCall) : Proc (option error) :=
  let* x := deref u in
  modify u (with_pc (pc x ++ [c])) ;;
  ret (fw_error fw u (pc x) c).

(** [u.pc.CreateOffer(nil)], [u.pc.CreateAnswer(nil)] *)
Definition create (u : Z) (c : PCCall) (ty : webrtc.SDPType)
  : Proc (webrtc.SessionDescription * option error) :=
  let* x := deref u in
  let* err := call u c in
  ret (fw_description fw u (pc x) ty, err).

(** [u.pc.NewTrack(payloadType, ssrc, id, label)]: the Track carries what
    it was created with ([track.SSRC()] is [ssrc]) *)
Definition NewTrack (u : Z) (payloadType ssrc : N) (id label : string)
  : Proc (webrtc.Track * option error) :=
  let* err := call u (pc_NewTrack payloadType ssrc id label) in
  ret ({| webrtc.track_PayloadType := payloadType; webrtc.SSRC := ssrc;
          webrtc.track_ID := id; webrtc.track_Label := label |}, err).

(** *** Signaling out *)

(** [SendJSON]: [json.Marshal] does not fail on an [Event], and the
    channel carries the record the bytes encode. *)
Definition SendJSON (u : Z) (body : Event) : Proc (option error) :=
  let* x := deref u in
  modify u (with_send (send x ++ [body])) ;;
  ret None.

Definition errorEvent (e : error) : Event :=
  {| Type_ := "error"; Offer_ := None; Answer_ := None; Candidate_ := None;
     Desc := Sprint e |}.

Definition offerEvent (d : webrtc.SessionDescription) : Event :=
  {| Type_ := "offer"; Offer_ := Some d; Answer_ := None; Candidate_ := None;
     Desc := "" |}.

Definition answerEvent (d : webrtc.SessionDescription) : Event :=
  {| Type_ := "answer"; Offer_ := None; Answer_ := Some d; Candidate_ := None;
     Desc := "" |}.

Definition SendErr (u : Z) (err : error) : Proc (option error) :=
  SendJSON u (errorEvent err).

(** *** Tracks *)

Definition AddTrack (u : Z) (ssrc : N) : Proc (option error) :=
  let* r := NewTrack u webrtc.DefaultPayloadTypeOpus ssrc "pion" "pion" in
  match r.2 with
  | Some e => ret (Some e)
  | None =>
      let track := r.1 in
      let* err := call u (pc_AddTrack track) in
      match err with
      | Some e =>
          emit (LogLine [Str "ERROR Add remote track as peerConnection local track";
                         Str (Sprint e)]) ;;
          ret (Some e)
      | None =>
          let* x := deref u in
          modify u (with_outTracks (<[webrtc.SSRC track := track]> (outTracks x))) ;;
          ret None
      end
  end.

(** the loop of [GetRoomTracks] over the snapshot *)
Fixpoint inTracks (l : list Z) : Proc (list webrtc.Track) :=
  match l with
  | [] => ret []
  | user :: rest =>
      let* x := deref user in
      let* tracks := inTracks rest in
      ret (match inTrack x with
           | Some t => t :: tracks
           | None => tracks
           end)
  end.

Definition GetRoomTracks (u : Z) : Proc (list webrtc.Track) :=
  let* x := deref u in
  let* snapshot := Room.GetUsers (room x) in
  inTracks snapshot.

(** the search loop of [supportOpus]: the payload type of the first
    audio codec named OPUS, or the initial 0 *)
Fixpoint opusPayloadType (codecs : list webrtc.RTPCodec) : N :=
  match codecs with
  | [] => 0%N
  | audioCodec :: rest =>
      if String.eqb (webrtc.Name audioCodec) "OPUS"
      then webrtc.PayloadType audioCodec
      else opusPayloadType rest
  end.

Definition supportOpus (offer : webrtc.SessionDescription) : bool :=
  if N.eqb (opusPayloadType (fw_audioCodecs fw offer)) 0 then false else true.

(** *** Offers and answers *)

Definition Offer (u : Z) : Proc (webrtc.SessionDescription * option error) :=
  let* r := create u pc_CreateOffer webrtc.SDPTypeOffer in
  match r.2 with
  | Some e => ret (webrtc.SessionDescription_zero, Some e)
  | None =>
      let* err := call u (pc_SetLocalDescription r.1) in
      match err with
      | Some e => ret (webrtc.SessionDescription_zero, Some e)
      | None => ret (r.1, None)
      end
  end.

Definition SendOffer (u : Z) : Proc (option error) :=
  let* r := Offer u in
  let offer := r.1 in
  let* err := SendJSON u (offerEvent offer) in
  match err with
  | Some e => panic e
  | None => ret None
  end.

Definition Answer (u : Z) : Proc (webrtc.SessionDescription * option error) :=
  let* r := create u pc_CreateAnswer webrtc.SDPTypeAnswer in
  match r.2 with
  | Some e => ret (webrtc.SessionDescription_zero, Some e)
  | None =>
      let* err := call u (pc_SetLocalDescription r.1) in
      match err with
      | Some e => ret (webrtc.SessionDescription_zero, Some e)
      | None => ret (r.1, None)
      end
  end.

Definition SendAnswer (u : Z) : Proc (option error) :=
  let* r := Answer u in
  match r.2 with
  | Some e => ret (Some e)
  | None => SendJSON u (answerEvent r.1) ;; ret None
  end.

(** the loop of [HandleOffer] over the room's tracks *)
Fixpoint attach (u : Z) (tracks : list webrtc.Track) : Proc unit :=
  match tracks with
  | [] => ret tt
  | track :: rest =>
      let* err := AddTrack u (webrtc.SSRC track) in
      match err with
      | Some e =>
          emit (LogLine [Str "ERROR Add remote track as peerConnection local track";
                         Str (Sprint e)]) ;;
          panic e
      | None => attach u rest
      end
  end.

Definition errNoOpus : error :=
  errors_New "remote peer does not support opus codec".

Definition HandleOffer (u : Z) (offer : webrtc.SessionDescription)
  : Proc (option error) :=
  if supportOpus offer then
    let* tracks := GetRoomTracks u in
    let* err :=
      (if Nat.eqb (length tracks) 0
       then call u (pc_AddTransceiver webrtc.RTPCodecTypeAudio
                                      webrtc.RTPTransceiverDirectionRecvonly)
       else ret None) in
    match err with
    | Some e => ret (Some e)
    | None =>
        emit (OutLine [Str "attach "; Num (Z.of_nat (length tracks));
                       Str "tracks to new user"]) ;;
        attach u tracks ;;
        let* err := call u (pc_SetRemoteDescription offer) in
        match err with
        | Some e => ret (Some e)
        | None => SendAnswer u
        end
    end
  else ret (Some errNoOpus).

(** *** Signaling in *)

Definition HandleEvent (u : Z) (eventRaw : Unmarshalled) : Proc (option error) :=
  match eventRaw with
  | UnmarshalError err => ret (Some err)
  | UnmarshalNil => panic nilDereference
  | UnmarshalEvent event =>
      emit (LogLine [Str "handle event"; Str (Type_ event)]) ;;
      if String.eqb (Type_ event) "offer" then
        match Offer_ event with
        | None => SendErr u (errors_New "empty offer")
        | Some offer => HandleOffer u offer
        end
      else if String.eqb (Type_ event) "answer" then
        match Answer_ event with
        | None => SendErr u (errors_New "empty answer")
        | Some answer => call u (pc_SetRemoteDescription answer) ;; ret None
        end
      else if String.eqb (Type_ event) "candidate" then
        match Candidate_ event with
        | None => SendErr u (errors_New "empty candidate")
        | Some candidate =>
            emit (LogLine [Str "adding candidate"; Str (webrtc.Candidate candidate)]) ;;
            call u (pc_AddICECandidate candidate) ;;
            ret None
        end
      else SendErr u (errors_New "not implemented")
  end.

(** the task [readPump] starts for each message it has read *)
Definition handleMessage (u : Z) (message : Unmarshalled) : Proc unit :=
  let* err := HandleEvent u message in
  match err with
  | Some e =>
      emit (LogLine [Str (Sprint e)]) ;;
      SendErr u e ;;
      ret tt
  | None => ret tt
  end.

(** what [readPump] defers: run when the websocket read fails *)
Definition readPumpExit (u : Z) : Proc unit :=
  modify u (with_stop true) ;;
  let* x := deref u in
  Room.Leave (room x) u.

End Server.

Section Media.

Context (fw : Framework).

(** *** The fan-out *)

(** what one [remoteTrack.ReadRTP()] returns *)
Inductive ReadResult :=
| ReadPacket (pkt : rtp.Packet)
| ReadError (err : error).

(** how far a task that runs a [for] loop has come: it left the loop and
    returned, or it waits inside the loop for its next input *)
Inductive Loop := Returned | Waiting.

(** [receiveInTrackRTP], run on the results the inbound track's reads
    deliver, in order *)
Fixpoint receiveInTrackRTP (u : Z) (reads : list ReadResult) : Proc Loop :=
  match reads with
  | [] => ret Waiting
  | ReadError err :: rest =>
      if decide (err = io_EOF) then ret Returned
      else
        emit (LogLine [Str "rtp err => %v"; Str (Sprint err)]) ;;
        λ w, Fatal w
  | ReadPacket pkt :: rest =>
      let* x := deref u in
      modify u (with_rtpCh (rtpCh x ++ [pkt])) ;;
      receiveInTrackRTP u rest
  end.

(** [ReadRTP]: [None] when the channel is open and empty, where the
    receive waits *)
Definition ReadRTP (u : Z) : Proc (option (option rtp.Packet * option error)) :=
  let* x := deref u in
  match rtpCh x with
  | pkt :: rest =>
      modify u (with_rtpCh rest) ;;
      ret (Some (Some pkt, None))
  | [] =>
      if rtpChClosed x then ret (Some (None, Some errChanClosed))
      else ret None
  end.

Definition WriteRTP (u : Z) (pkt : option rtp.Packet) : Proc (option error) :=
  match pkt with
  | None => ret (Some errInvalidPacket)
  | Some p =>
      let* x := deref u in
      match outTracks x !! rtp.SSRC p with
      | None =>
          emit (LogLine [Str "WebRTCTransport.WriteRTP track==nil pkt.SSRC=%d";
                         Num (Z.of_N (rtp.SSRC p))]) ;;
          ret (Some errInvalidTrack)
      | Some track => call fw u (track_WriteRTP track p)
      end
  end.

(** the inner loop of [broadcastIncomingRTP] over the snapshot *)
Fixpoint forward (snapshot : list Z) (pkt : option rtp.Packet) : Proc unit :=
  match snapshot with
  | [] => ret tt
  | user :: rest =>
      let* err := WriteRTP user pkt in
      match err with
      | Some e => emit (OutLine [Str (Sprint e)])
      | None => ret tt
      end ;;
      forward rest pkt
  end.

(** one turn of the loop of [broadcastIncomingRTP] *)
Definition broadcastOne (u : Z) : Proc Loop :=
  let* r := ReadRTP u in
  match r with
  | None => ret Waiting
  | Some (_, Some err) => panic err
  | Some (pkt, None) =>
      let* x := deref u in
      let* snapshot := Room.GetOtherUsers (room x) u in
      forward snapshot pkt ;;
      ret Returned
  end.

(** [broadcastIncomingRTP], for at most [turns] turns of its loop: it
    never returns, so the result is [Waiting] (on an empty channel, or
    before the next turn) unless it panics *)
Fixpoint broadcastIncomingRTP (turns : nat) (u : Z) : Proc Loop :=
  match turns with
  | O => ret Waiting
  | S n =>
      let* r := broadcastOne u in
      match r with
      | Waiting => ret Waiting
      | Returned => broadcastIncomingRTP n u
      end
  end.

(** *** Events of the media session *)

(** the loop of the [OnTrack] handler over the other users *)
Fixpoint renegotiate (snapshot : list Z) (ssrc : N) : Proc unit :=
  match snapshot with
  | [] => ret tt
  | roomUser :: rest =>
      let* err := AddTrack fw roomUser ssrc in
      match err with
      | Some e => panic e
      | None =>
          let* err := SendOffer fw roomUser in
          match err with
          | Some e => panic e
          | None => renegotiate rest ssrc
          end
      end
  end.

(** the [OnTrack] handler, up to where it starts the two fan-out tasks
    (the codec name is left out of the last log line) *)
Definition OnTrack (user : Z) (remoteTrack : webrtc.Track) : Proc unit :=
  let* x := deref user in
  emit (LogLine [Str "user id: "; Num (ID x); Str "peerConnection.OnTrack"]) ;;
  modify user (with_inTrack (Some remoteTrack)) ;;
  let* snapshot := Room.GetOtherUsers (room x) user in
  renegotiate snapshot (webrtc.SSRC remoteTrack) ;;
  emit (LogLine [Str "Track has started, of type %d: %s, ssrc: %d \n";
                 Num (Z.of_N (webrtc.track_PayloadType remoteTrack));
                 Num (Z.of_N (webrtc.SSRC remoteTrack))]).

(** [connectionState.String()] *)
Definition ICEConnectionState_String (s : webrtc.ICEConnectionState) : string :=
  match s with
  | webrtc.ICEConnectionStateNew => "new"
  | webrtc.ICEConnectionStateChecking => "checking"
  | webrtc.ICEConnectionStateConnected => "connected"
  | webrtc.ICEConnectionStateCompleted => "completed"
  | webrtc.ICEConnectionStateDisconnected => "disconnected"
  | webrtc.ICEConnectionStateFailed => "failed"
  | webrtc.ICEConnectionStateClosed => "closed"
  end.

Definition logMembersCount (user : Z) : Proc unit :=
  let* x := deref user in
  let* snapshot := Room.GetUsers (room x) in
  emit (LogLine [Str "now members count is"; Num (Z.of_nat (length snapshot))]).

(** the [OnICEConnectionStateChange] handler *)
Definition OnICEConnectionStateChange (user : Z)
    (connectionState : webrtc.ICEConnectionState) : Proc unit :=
  emit (LogLine [Str "Connection State has changed %s \n";
                 Str (ICEConnectionState_String connectionState)]) ;;
  if decide (connectionState = webrtc.ICEConnectionStateConnected) then
    emit (LogLine [Str "user joined"]) ;;
    logMembersCount user
  else if decide (connectionState = webrtc.ICEConnectionStateDisconnected
                  ∨ connectionState = webrtc.ICEConnectionStateFailed
                  ∨ connectionState = webrtc.ICEConnectionStateClosed) then
    emit (LogLine [Str "user leaved"]) ;;
    logMembersCount user
  else ret tt.

End Media.


(** ** Sample frameworks and states *)

Module Sample.

Definition opusOffer : webrtc.SessionDescription :=
  {| webrtc.sd_Type := webrtc.SDPTypeOffer;
     webrtc.sd_SDP := "m=audio 9 UDP/TLS/RTP/SAVPF 111 a=rtpmap:111 opus/48000/2" |}.

Definition pcmuOffer : webrtc.SessionDescription :=
  {| webrtc.sd_Type := webrtc.SDPTypeOffer;
     webrtc.sd_SDP := "m=audio 9 UDP/TLS/RTP/SAVPF 0 a=rtpmap:0 PCMU/8000" |}.

Definition audioCodecs (d : webrtc.SessionDescription) : list webrtc.RTPCodec :=
  if decide (d = opusOffer)
  then [ {| webrtc.Name := "OPUS"; webrtc.PayloadType := 111 |} ]
  else if decide (d = pcmuOffer)
  then [ {| webrtc.Name := "PCMU"; webrtc.PayloadType := 0 |} ]
  else [].

Definition description (u : Z) (h : list PCCall) (ty : webrtc.SDPType)
  : webrtc.SessionDescription :=
  {| webrtc.sd_Type := ty; webrtc.sd_SDP := "v=0" |}.

(** a framework on which every call succeeds *)
Definition reliable : Framework :=
  {| fw_error := λ _ _ _, None;
     fw_description := description;
     fw_audioCodecs := audioCodecs |}.

(** a framework on which [CreateOffer] fails, and so does every write on a
    track of user 2 *)
Definition faulty : Framework :=
  {| fw_error := λ u _ c,
       match c with
       | pc_CreateOffer => Some (errors_New "InvalidStateError")
       | track_WriteRTP _ _ =>
           if decide (u = 2%Z) then Some (errors_New "io: read/write on closed pipe")
           else None
       | _ => None
       end;
     fw_description := description;
     fw_audioCodecs := audioCodecs |}.

(** a framework on which user 3 cannot create a track *)
Definition rejecting : Framework :=
  {| fw_error := λ u _ c,
       match c with
       | pc_NewTrack _ _ _ _ =>
           if decide (u = 3%Z) then Some (errors_New "codec not found") else None
       | _ => None
       end;
     fw_description := description;
     fw_audioCodecs := audioCodecs |}.

Definition newUser (id : Z) (r : string) : User :=
  {| ID := id; room := r; send := []; pc := []; inTrack := None;
     outTracks := ∅; rtpCh := []; rtpChClosed := false; stop := false |}.

Definition remote (ssrc : N) : webrtc.Track :=
  {| webrtc.track_PayloadType := 111; webrtc.SSRC := ssrc;
     webrtc.track_ID := "audio"; webrtc.track_Label := "client" |}.

Definition local (ssrc : N) : webrtc.Track :=
  {| webrtc.track_PayloadType := webrtc.DefaultPayloadTypeOpus; webrtc.SSRC := ssrc;
     webrtc.track_ID := "pion"; webrtc.track_Label := "pion" |}.

(** three users in room r1, none has published *)
Definition fresh : World :=
  {| users := {[ 1%Z := newUser 1 "r1"; 2%Z := newUser 2 "r1"; 3%Z := newUser 3 "r1" ]};
     rooms := {[ "r1" := {[ 1%Z; 2%Z; 3%Z ]} ]};
     output := [] |}.

(** user 1 has published SSRC 7000; users 2 and 3 subscribe to it *)
Definition published : World :=
  {| users :=
       {[ 1%Z := with_inTrack (Some (remote 7000)) (newUser 1 "r1");
          2%Z := with_outTracks {[ 7000%N := local 7000 ]} (newUser 2 "r1");
          3%Z := with_outTracks {[ 7000%N := local 7000 ]} (newUser 3 "r1") ]};
     rooms := {[ "r1" := {[ 1%Z; 2%Z; 3%Z ]} ]};
     output := [] |}.

(** user 1 alone in room r1, after it has published SSRC 7000 *)
Definition alone : World :=
  {| users := {[ 1%Z := with_inTrack (Some (remote 7000)) (newUser 1 "r1") ]};
     rooms := {[ "r1" := {[ 1%Z ]} ]};
     output := [] |}.

Definition packet (ssrc seq : N) : rtp.Packet :=
  {| rtp.SSRC := ssrc; rtp.SequenceNumber := seq; rtp.Payload := [1; 2; 3]%N |}.

End Sample.

(** ** The effects of the primitive operations *)

(** user [u] is now [x] *)
Definition upd (u : Z) (x : User) (w : World) : World :=
  with_users (<[u := x]> (users w)) w.

(** one more line of output *)
Definition logs (l : Line) (w : World) : World :=
  with_output (output w ++ [l]) w.

(** one more event on the send channel of [u] *)
Definition sends (u : Z) (ev : Event) (w : World) : World :=
  with_users (alter (λ x, with_send (send x ++ [ev]) x) u (users w)) w.

(** one more call on the peer connection of [u] *)
Definition calls (u : Z) (c : PCCall) (w : World) : World :=
  with_users (alter (λ x, with_pc (pc x ++ [c]) x) u (users w)) w.

(** more packets on the packet channel of [u] *)
Definition enqueues (u : Z) (pkts : list rtp.Packet) (w : World) : World :=
  with_users (alter (λ x, with_rtpCh (rtpCh x ++ pkts) x) u (users w)) w.

(** the line [HandleEvent] logs first *)
Definition handled (ev : Event) : Line :=
  LogLine [Str "handle event"; Str (Type_ ev)].

(** the peer connections, the tracks and the flags are those of [w] *)
Definition sameMedia (w w' : World) : Prop :=
  ∀ v, (λ x, (pc x, inTrack x, outTracks x, stop x)) <$> users w' !! v
       = (λ x, (pc x, inTrack x, outTracks x, stop x)) <$> users w !! v.

(** the line [WriteRTP] logs when the user has no track for the packet *)
Definition trackNil (pkt : rtp.Packet) : Line :=
  LogLine [Str "WebRTCTransport.WriteRTP track==nil pkt.SSRC=%d";
           Num (Z.of_N (rtp.SSRC pkt))].

(** the Track [AddTrack] creates for a stream identifier *)
Definition pionTrack (ssrc : N) : webrtc.Track :=
  {| webrtc.track_PayloadType := webrtc.DefaultPayloadTypeOpus; webrtc.SSRC := ssrc;
     webrtc.track_ID := "pion"; webrtc.track_Label := "pion" |}.

(** the two framework calls of [AddTrack] *)
Definition newTrackCall (ssrc : N) : PCCall :=
  pc_NewTrack webrtc.DefaultPayloadTypeOpus ssrc "pion" "pion".

(** what forwarding [pkt] has done for subscriber [s], which was [y]:
    with a track for the packet's SSRC, the packet was written to it, and
    if that write failed the error was printed; without one, nothing was
    written and the missing track was printed *)
Definition forwarded (fw : Framework) (pkt : rtp.Packet) (w' : World)
    (s : Z) (y : User) : Prop :=
  match outTracks y !! rtp.SSRC pkt with
  | None =>
      users w' !! s = Some y
      ∧ OutLine [Str (Sprint errInvalidTrack)] ∈ output w'
  | Some track =>
      users w' !! s = Some (with_pc (pc y ++ [track_WriteRTP track pkt]) y)
      ∧ ∀ e, fw_error fw s (pc y) (track_WriteRTP track pkt) = Some e →
             OutLine [Str (Sprint e)] ∈ output w'
  end.

(** every member of room [r] is a User of the process *)
Definition membersLive (r : string) (w : World) : Prop :=
  set_Forall (λ s, is_Some (users w !! s)) (Room.members r w).

(** the framework lets user [B], who is [y], add a track for [ssrc] *)
Definition accepts (fw : Framework) (ssrc : N) (B : Z) (y : User) : Prop :=
  fw_error fw B (pc y) (newTrackCall ssrc) = None
  ∧ fw_error fw B (pc y ++ [newTrackCall ssrc]) (pc_AddTrack (pionTrack ssrc)) = None.



(** ** The rest of user.go *)

(** the byte of the character '/' (47) *)
Definition slash : Ascii.ascii :=
  Ascii.Ascii true true true true false true false false.

(** the room identifier [serveWs] takes from the request:
    [strings.ReplaceAll(r.URL.Path, "/", "")] *)
Fixpoint roomID (path : string) : string :=
  match path with
  | EmptyString => EmptyString
  | String c rest =>
      if Ascii.eqb c slash then roomID rest else String c (roomID rest)
  end.

Definition candidateEvent (c : webrtc.ICECandidateInit) : Event :=
  {| Type_ := "candidate"; Offer_ := None; Answer_ := None; Candidate_ := Some c;
     Desc := "" |}.

Section Candidates.

(** a [webrtc.ICECandidate] and its [ToJSON], which are the framework's *)
Context {ICECandidate : Type} (ToJSON : ICECandidate → webrtc.ICECandidateInit).

Definition SendCandidate (u : Z) (iceCandidate : option ICECandidate)
  : Proc (option error) :=
  match iceCandidate with
  | None => ret (Some (errors_New "nil ice candidate"))
  | Some c =>
      let iceCandidateInit := ToJSON c in
      let* err := SendJSON u (candidateEvent iceCandidateInit) in
      match err with
      | Some e => ret (Some e)
      | None => ret None
      end
  end.

(** the [OnICECandidate] handler *)
Definition OnICECandidate (user : Z) (iceCandidate : option ICECandidate) : Proc unit :=
  match iceCandidate with
  | Some _ =>
      let* err := SendCandidate user iceCandidate in
      match err with
      | Some e => emit (LogLine [Str "fail send candidate"; Str (Sprint e)])
      | None => ret tt
      end
  | None => ret tt
  end.

End Candidates.





(** what one [u.conn.ReadMessage()] of [readPump] gives: a message, as
    [json.Unmarshal] will decode it, or an error ([unexpected]: what
    [websocket.IsUnexpectedCloseError] says of it) *)
Inductive ReadMessage :=
| Message (message : Unmarshalled)
| ReadFailed (err : error) (unexpected : bool).

Section ReadPump.

Context (fw : Framework).

(** [readPump], run on what the reads deliver; the task started for a
    message is run when the message has been read *)
Fixpoint readPump (u : Z) (reads : list ReadMessage) : Proc Loop :=
  match reads with
  | [] => ret Waiting
  | ReadFailed err unexpected :: _ =>
      emit (LogLine [Str (Sprint err)]) ;;
      (if unexpected
       then emit (LogLine [Str "error: %v"; Str (Sprint err)]) ;;
            emit (LogLine [Str (Sprint err)])
       else ret tt) ;;
      readPumpExit u ;;
      ret Returned
  | Message message :: rest =>
      handleMessage fw u message ;;
      readPump u rest
  end.

End ReadPump.

(** ** What the handlers keep *)

(** user [x] has become [x'] without losing anything: same identity, room
    and flags, nothing taken back from the send channel or from the
    connection's history, no outbound track removed *)
Definition keeps (x x' : User) : Prop :=
  ID x' = ID x
  ∧ room x' = room x
  ∧ stop x' = stop x
  ∧ rtpChClosed x' = rtpChClosed x
  ∧ send x `prefix_of` send x'
  ∧ pc x `prefix_of` pc x'
  ∧ dom (outTracks x) ⊆ dom (outTracks x').

(** state [w] has become [w'] without losing anything: same rooms with
    the same members, the same users, each kept, and the output extended *)
Definition advances (w w' : World) : Prop :=
  rooms w' = rooms w
  ∧ output w `prefix_of` output w'
  ∧ ∀ v, match users w !! v with
         | Some x => ∃ x', users w' !! v = Some x' ∧ keeps x x'
         | None => users w' !! v = None
         end.

(** however [m] ends, the state has advanced *)
Definition steady {A} (m : Proc A) : Prop :=
  ∀ w, advances w (final (m w)).

(** however [m] ends, it has changed no user outside [S] *)
Definition only {A} (S : Z → Prop) (m : Proc A) : Prop :=
  ∀ w v, ¬ S v → users (final (m w)) !! v = users w !! v.

(** user [y] after [AddTrack] has succeeded for each of [ssrcs] in turn *)
Definition attached (ssrcs : list N) (y : User) : User :=
  foldl (λ y ssrc,
           with_outTracks (<[ssrc := pionTrack ssrc]> (outTracks y))
             (with_pc (pc y ++ [newTrackCall ssrc; pc_AddTrack (pionTrack ssrc)]) y))
        y ssrcs.

(** the framework never refuses user [u] a track *)
Definition tracksAccepted (fw : Framework) (u : Z) : Prop :=
  ∀ h ssrc, fw_error fw u h (newTrackCall ssrc) = None
            ∧ fw_error fw u h (pc_AddTrack (pionTrack ssrc)) = None.

(** what [HandleOffer] has made of user [x] when it returns [r]: after an
    error nothing was sent; after nil the tracks of [ssrcs] were added,
    then the remote description was set, then the answer created, set as
    local description and sent *)
Definition answered (offer : webrtc.SessionDescription) (ssrcs : list N)
    (r : option error) (x x' : User) : Prop :=
  match r with
  | Some _ => send x' = send x
  | None =>
      ∃ d, send x' = send x ++ [answerEvent d]
           ∧ pc x' = pc x
                     ++ flat_map (λ s, [newTrackCall s; pc_AddTrack (pionTrack s)]) ssrcs
                     ++ [pc_SetRemoteDescription offer; pc_CreateAnswer;
                         pc_SetLocalDescription d]
           ∧ outTracks x' = outTracks (attached ssrcs x)
  end.

(** ** More sample frameworks and states *)

Module Scenario.

(** an offer whose first OPUS codec has payload type 0, before one with 111 *)
Definition oddOffer : webrtc.SessionDescription :=
  {| webrtc.sd_Type := webrtc.SDPTypeOffer;
     webrtc.sd_SDP := "m=audio 9 UDP/TLS/RTP/SAVPF 8 0 111" |}.

Definition audioCodecs (d : webrtc.SessionDescription) : list webrtc.RTPCodec :=
  if decide (d = oddOffer)
  then [ {| webrtc.Name := "PCMA"; webrtc.PayloadType := 8 |};
         {| webrtc.Name := "OPUS"; webrtc.PayloadType := 0 |};
         {| webrtc.Name := "OPUS"; webrtc.PayloadType := 111 |} ]
  else Sample.audioCodecs d.

(** a framework on which every call succeeds, and which reads [oddOffer] *)
Definition reliable : Framework :=
  {| fw_error := λ _ _ _, None;
     fw_description := Sample.description;
     fw_audioCodecs := audioCodecs |}.

(** a framework on which no answer can be created *)
Definition unanswering : Framework :=
  {| fw_error := λ _ _ c,
       match c with
       | pc_CreateAnswer => Some (errors_New "InvalidStateError")
       | _ => None
       end;
     fw_description := Sample.description;
     fw_audioCodecs := Sample.audioCodecs |}.

(** two users in room r1 and two in room r2; user 1 has published SSRC
    7000 and holds two packets to forward; users 2 and 3 have a track
    for it *)
Definition twoRooms : World :=
  {| users :=
       {[ 1%Z := with_rtpCh [Sample.packet 7000 1; Sample.packet 7000 2]
                   (with_inTrack (Some (Sample.remote 7000)) (Sample.newUser 1 "r1"));
          2%Z := with_outTracks {[ 7000%N := pionTrack 7000 ]} (Sample.newUser 2 "r1");
          3%Z := with_outTracks {[ 7000%N := pionTrack 7000 ]} (Sample.newUser 3 "r2");
          4%Z := Sample.newUser 4 "r2" ]};
     rooms := {[ "r1" := {[ 1%Z; 2%Z ]}; "r2" := {[ 3%Z; 4%Z ]} ]};
     output := [] |}.

End Scenario.

Lemma alter_Some {A} (f : A → A) (u : Z) (x : A) (m : gmap Z A) :
  m !! u = Some x → alter f u m = <[u := f x]> m.
Proof.
  intros Hx. apply map_eq. intros v.
  rewrite lookup_alter, lookup_insert.
  destruct (decide (u = v)) as [->|]; [by rewrite Hx | done].
Qed.

Lemma bind_Ret {A B} (m : Proc A) (k : A → Proc B) w a w' :
  m w = Ret a w' → bind m k w = k a w'.
Proof. unfold bind. by intros ->. Qed.

Lemma deref_eq u x w : users w !! u = Some x → deref u w = Ret x w.
Proof. unfold deref. by intros ->. Qed.

Lemma modify_eq u x f w :
  users w !! u = Some x → modify u f w = Ret tt (upd u (f x) w).
Proof. intros Hx. unfold modify. by rewrite (bind_Ret _ _ _ _ _ (deref_eq _ _ _ Hx)). Qed.

Lemma users_upd u x w : users (upd u x w) !! u = Some x.
Proof. apply lookup_insert_eq. Qed.

Lemma users_upd_ne u v x w : u ≠ v → users (upd u x w) !! v = users w !! v.
Proof. intros. by apply lookup_insert_ne. Qed.

Lemma upd_upd u x y w : upd u y (upd u x w) = upd u y w.
Proof. unfold upd, with_users. simpl. by rewrite insert_insert_eq. Qed.

Lemma upd_id u x w : users w !! u = Some x → upd u x w = w.
Proof.
  intros Hx. unfold upd, with_users. rewrite insert_id by done. by destruct w.
Qed.

Lemma sends_eq u x ev w :
  users w !! u = Some x → sends u ev w = upd u (with_send (send x ++ [ev]) x) w.
Proof. intros Hx. unfold sends, upd. by rewrite (alter_Some _ _ _ _ Hx). Qed.

Lemma calls_eq u x c w :
  users w !! u = Some x → calls u c w = upd u (with_pc (pc x ++ [c]) x) w.
Proof. intros Hx. unfold calls, upd. by rewrite (alter_Some _ _ _ _ Hx). Qed.

Lemma enqueues_eq u x pkts w :
  users w !! u = Some x → enqueues u pkts w = upd u (with_rtpCh (rtpCh x ++ pkts) x) w.
Proof. intros Hx. unfold enqueues, upd. by rewrite (alter_Some _ _ _ _ Hx). Qed.

Lemma emit_eq l w : emit l w = Ret tt (logs l w).
Proof. done. Qed.

Section Effects.

Context (fw : Framework).

Lemma call_eq u x c w :
  users w !! u = Some x →
  call fw u c w = Ret (fw_error fw u (pc x) c) (calls u c w).
Proof.
  intros Hx. unfold call.
  rewrite (bind_Ret _ _ _ _ _ (deref_eq _ _ _ Hx)).
  rewrite (bind_Ret _ _ _ _ _ (modify_eq _ _ _ _ Hx)).
  by rewrite (calls_eq _ _ _ _ Hx).
Qed.

Lemma SendJSON_eq u x ev w :
  users w !! u = Some x → SendJSON u ev w = Ret None (sends u ev w).
Proof.
  intros Hx. unfold SendJSON.
  rewrite (bind_Ret _ _ _ _ _ (deref_eq _ _ _ Hx)).
  rewrite (bind_Ret _ _ _ _ _ (modify_eq _ _ _ _ Hx)).
  by rewrite (sends_eq _ _ _ _ Hx).
Qed.

Lemma SendErr_eq u x e w :
  users w !! u = Some x → SendErr u e w = Ret None (sends u (errorEvent e) w).
Proof. apply SendJSON_eq. Qed.

Lemma create_eq u x c ty w :
  users w !! u = Some x →
  create fw u c ty w
  = Ret (fw_description fw u (pc x) ty, fw_error fw u (pc x) c) (calls u c w).
Proof.
  intros Hx. unfold create.
  rewrite (bind_Ret _ _ _ _ _ (deref_eq _ _ _ Hx)).
  by rewrite (bind_Ret _ _ _ _ _ (call_eq _ _ _ _ Hx)).
Qed.

End Effects.

Lemma sameMedia_sends u ev w : sameMedia w (sends u ev w).
Proof.
  intros v. unfold sends. simpl. rewrite lookup_alter.
  destruct (decide (u = v)) as [->|]; [|done].
  by destruct (users w !! v).
Qed.

Lemma sameMedia_logs l w : sameMedia w (logs l w).
Proof. by intros v. Qed.

Lemma sameMedia_trans w1 w2 w3 : sameMedia w1 w2 → sameMedia w2 w3 → sameMedia w1 w3.
Proof. intros H12 H23 v. by rewrite H23, H12. Qed.

(** ** Signaling errors *)

Section Signaling.

Context (fw : Framework).

(** C8: an offer, answer or candidate event whose payload field is nil
    makes [HandleEvent] put one error event on the send channel, with
    description "empty offer", "empty answer" or "empty candidate", and
    return nil; apart from the log line, nothing else changes: no call
    is made on any peer connection. *)
Theorem HandleEvent_empty_payload (u : Z) (x : User) (ev : Event) (d : string) (w : World) :
  users w !! u = Some x →
  (Type_ ev = "offer" ∧ Offer_ ev = None ∧ d = "empty offer")
  ∨ (Type_ ev = "answer" ∧ Answer_ ev = None ∧ d = "empty answer")
  ∨ (Type_ ev = "candidate" ∧ Candidate_ ev = None ∧ d = "empty candidate") →
  let w' := sends u (errorEvent (errors_New d)) (logs (handled ev) w) in
  HandleEvent fw u (UnmarshalEvent ev) w = Ret None w'
  ∧ handleMessage fw u (UnmarshalEvent ev) w = Ret tt w'
  ∧ sameMedia w w'.
Proof.
  intros Hx Hev w'.
  assert (HandleEvent fw u (UnmarshalEvent ev) w = Ret None w') as HE.
  { unfold HandleEvent.
    rewrite (bind_Ret _ _ _ _ _ (emit_eq _ _)).
    destruct ev as [ty o a c de]; simpl in *.
    destruct Hev as [(-> & -> & ->)|[(-> & -> & ->)|(-> & -> & ->)]]; simpl;
      by rewrite (SendErr_eq u x). }
  split; [done|]. split.
  - unfold handleMessage. by rewrite (bind_Ret _ _ _ _ _ HE).
  - eapply sameMedia_trans; [apply sameMedia_logs | apply sameMedia_sends].
Qed.

(** C9: an event whose type is none of offer, answer and candidate makes
    [HandleEvent] put one error event "not implemented" on the send
    channel and return nil; apart from the log line nothing else changes:
    the user is not stopped, stays in its room, and no call is made on a
    peer connection. *)
Theorem HandleEvent_not_implemented (u : Z) (x : User) (ev : Event) (w : World) :
  users w !! u = Some x →
  Type_ ev ≠ "offer" → Type_ ev ≠ "answer" → Type_ ev ≠ "candidate" →
  let w' := sends u (errorEvent (errors_New "not implemented")) (logs (handled ev) w) in
  HandleEvent fw u (UnmarshalEvent ev) w = Ret None w'
  ∧ handleMessage fw u (UnmarshalEvent ev) w = Ret tt w'
  ∧ sameMedia w w'
  ∧ rooms w' = rooms w
  ∧ stop <$> users w' !! u = Some (stop x).
Proof.
  intros Hx Ho Ha Hc w'.
  assert (HandleEvent fw u (UnmarshalEvent ev) w = Ret None w') as HE.
  { unfold HandleEvent.
    rewrite (bind_Ret _ _ _ _ _ (emit_eq _ _)).
    apply String.eqb_neq in Ho, Ha, Hc. rewrite Ho, Ha, Hc.
    by rewrite (SendErr_eq u x). }
  split; [done|]. split; [|split; [|split]].
  - unfold handleMessage. by rewrite (bind_Ret _ _ _ _ _ HE).
  - eapply sameMedia_trans; [apply sameMedia_logs | apply sameMedia_sends].
  - done.
  - unfold w', sends. simpl. rewrite lookup_alter_eq, Hx. done.
Qed.

End Signaling.

Lemma HandleEvent_empty_payload_witness :
  HandleEvent Sample.reliable 1
    (UnmarshalEvent {| Type_ := "answer"; Offer_ := None; Answer_ := None;
                       Candidate_ := None; Desc := "" |}) Sample.fresh
  = Ret None
      (sends 1 (errorEvent (errors_New "empty answer"))
         (logs (LogLine [Str "handle event"; Str "answer"]) Sample.fresh)).
Proof.
  refine (proj1 (HandleEvent_empty_payload Sample.reliable 1 (Sample.newUser 1 "r1") _
                   "empty answer" Sample.fresh _ _)).
  - reflexivity.
  - right. left. repeat split; reflexivity.
Defined.

Lemma HandleEvent_not_implemented_witness :
  HandleEvent Sample.reliable 1
    (UnmarshalEvent {| Type_ := "hangup"; Offer_ := None; Answer_ := None;
                       Candidate_ := None; Desc := "" |}) Sample.fresh
  = Ret None
      (sends 1 (errorEvent (errors_New "not implemented"))
         (logs (LogLine [Str "handle event"; Str "hangup"]) Sample.fresh)).
Proof.
  refine (proj1 (HandleEvent_not_implemented Sample.reliable 1 (Sample.newUser 1 "r1") _
                   Sample.fresh _ _ _ _)).
  - reflexivity.
  - discriminate.
  - discriminate.
  - discriminate.
Defined.

(** ** Offers *)

Lemma users_calls u x c w :
  users w !! u = Some x →
  users (calls u c w) !! u = Some (with_pc (pc x ++ [c]) x).
Proof. intros Hx. rewrite (calls_eq _ _ _ _ Hx). apply users_upd. Qed.

Lemma users_calls_ne u v c w : u ≠ v → users (calls u c w) !! v = users w !! v.
Proof. intros. unfold calls. simpl. by rewrite lookup_alter_ne. Qed.

Lemma users_sends u x ev w :
  users w !! u = Some x →
  users (sends u ev w) !! u = Some (with_send (send x ++ [ev]) x).
Proof. intros Hx. rewrite (sends_eq _ _ _ _ Hx). apply users_upd. Qed.

Lemma opusPayloadType_absent (codecs : list webrtc.RTPCodec) :
  (∀ c, c ∈ codecs → webrtc.Name c ≠ "OPUS") → opusPayloadType codecs = 0%N.
Proof.
  induction codecs as [|c codecs IH]; intros Hno; simpl; [done|].
  assert (webrtc.Name c ≠ "OPUS") as Hc by (apply Hno; left).
  apply String.eqb_neq in Hc. rewrite Hc.
  apply IH. intros c' Hc'. apply Hno. by right.
Qed.

Section Offers.

Context (fw : Framework).

(** C4: an offer in whose description the framework finds no audio codec
    named OPUS is refused: [HandleOffer] returns the error "remote peer
    does not support opus codec" and leaves the state as it is, and the
    task handling the message logs the error and puts one error event
    with that description on the send channel; no call is made on the
    peer connection (no remote description, no transceiver) and the
    outbound tracks are unchanged. *)
Theorem HandleOffer_without_opus (u : Z) (x : User) (ev : Event)
    (offer : webrtc.SessionDescription) (w : World) :
  users w !! u = Some x →
  (∀ c, c ∈ fw_audioCodecs fw offer → webrtc.Name c ≠ "OPUS") →
  Type_ ev = "offer" → Offer_ ev = Some offer →
  let w' := sends u (errorEvent errNoOpus)
              (logs (LogLine [Str "remote peer does not support opus codec"])
                 (logs (handled ev) w)) in
  HandleOffer fw u offer w = Ret (Some errNoOpus) w
  ∧ handleMessage fw u (UnmarshalEvent ev) w = Ret tt w'
  ∧ sameMedia w w'
  ∧ users w' !! u = Some (with_send (send x ++ [errorEvent errNoOpus]) x).
Proof.
  intros Hx Hno Hty Hoff w'.
  assert (∀ w0, HandleOffer fw u offer w0 = Ret (Some errNoOpus) w0) as HO.
  { intros w0. unfold HandleOffer, supportOpus.
    rewrite (opusPayloadType_absent _ Hno). reflexivity. }
  split; [done|]. split; [|split].
  - assert (HandleEvent fw u (UnmarshalEvent ev) w
            = Ret (Some errNoOpus) (logs (handled ev) w)) as HE.
    { unfold HandleEvent.
      rewrite (bind_Ret _ _ _ _ _ (emit_eq _ _)), Hoff.
      apply String.eqb_eq in Hty. rewrite Hty. apply HO. }
    unfold handleMessage.
    rewrite (bind_Ret _ _ _ _ _ HE).
    rewrite (bind_Ret _ _ _ _ _ (emit_eq _ _)).
    by rewrite (bind_Ret _ _ _ _ _ (SendErr_eq u x _ (logs _ (logs _ w)) Hx)).
  - eapply sameMedia_trans; [|apply sameMedia_sends].
    eapply sameMedia_trans; apply sameMedia_logs.
  - by apply users_sends.
Qed.

(** C10: when [CreateOffer] fails, or [SetLocalDescription] fails on the
    offer created, [Offer] returns the zero description with the error,
    and [SendOffer] drops that error: it puts an offer event carrying the
    zero description on the send channel and returns nil. *)
Theorem SendOffer_discards_error (u : Z) (x : User) (w : World) :
  users w !! u = Some x →
  is_Some (fw_error fw u (pc x) pc_CreateOffer)
  ∨ is_Some (fw_error fw u (pc x ++ [pc_CreateOffer])
               (pc_SetLocalDescription (fw_description fw u (pc x) webrtc.SDPTypeOffer))) →
  ∃ e w1,
    Offer fw u w = Ret (webrtc.SessionDescription_zero, Some e) w1
    ∧ SendOffer fw u w
      = Ret None (sends u (offerEvent webrtc.SessionDescription_zero) w1).
Proof.
  intros Hx Hfail.
  assert (∃ e w1 x1, Offer fw u w = Ret (webrtc.SessionDescription_zero, Some e) w1
                     ∧ users w1 !! u = Some x1) as (e & w1 & x1 & HO & Hx1).
  { unfold Offer.
    rewrite (bind_Ret _ _ _ _ _ (create_eq fw _ _ _ _ _ Hx)). simpl.
    destruct (fw_error fw u (pc x) pc_CreateOffer) as [e|] eqn:Hc.
    - eexists _, _, _. split; [reflexivity|]. by apply users_calls.
    - destruct Hfail as [[? [=]]|[e He]].
      pose proof (users_calls u x pc_CreateOffer w Hx) as Hx'.
      rewrite (bind_Ret _ _ _ _ _ (call_eq fw _ _ _ _ Hx')). simpl.
      rewrite He.
      eexists _, _, _. split; [reflexivity|]. by apply users_calls. }
  exists e, w1. split; [done|].
  unfold SendOffer. rewrite (bind_Ret _ _ _ _ _ HO). simpl.
  by rewrite (bind_Ret _ _ _ _ _ (SendJSON_eq u x1 _ _ Hx1)).
Qed.

End Offers.

Lemma HandleOffer_without_opus_witness :
  HandleOffer Sample.reliable 1 Sample.pcmuOffer Sample.fresh
  = Ret (Some errNoOpus) Sample.fresh.
Proof.
  refine (proj1 (HandleOffer_without_opus Sample.reliable 1 (Sample.newUser 1 "r1")
                   {| Type_ := "offer"; Offer_ := Some Sample.pcmuOffer;
                      Answer_ := None; Candidate_ := None; Desc := "" |}
                   Sample.pcmuOffer Sample.fresh _ _ _ _)).
  - reflexivity.
  - intros c Hc. vm_compute in Hc.
    apply list_elem_of_singleton in Hc as ->. discriminate.
  - reflexivity.
  - reflexivity.
Defined.

Lemma SendOffer_discards_error_witness :
  ∃ e w1,
    Offer Sample.faulty 2 Sample.fresh = Ret (webrtc.SessionDescription_zero, Some e) w1
    ∧ SendOffer Sample.faulty 2 Sample.fresh
      = Ret None (sends 2 (offerEvent webrtc.SessionDescription_zero) w1).
Proof.
  apply (SendOffer_discards_error Sample.faulty 2 (Sample.newUser 2 "r1") Sample.fresh).
  - reflexivity.
  - left. simpl. eexists. reflexivity.
Defined.

(** ** Packets *)

Lemma with_rtpCh_id x : with_rtpCh (rtpCh x) x = x.
Proof. by destruct x. Qed.

Lemma enqueues_nil u w : enqueues u [] w = w.
Proof.
  unfold enqueues. destruct (users w !! u) as [x|] eqn:Hx.
  - rewrite (alter_Some _ _ _ _ Hx), app_nil_r, with_rtpCh_id.
    by apply (upd_id u x w).
  - assert (alter (λ x, with_rtpCh (rtpCh x ++ []) x) u (users w) = users w) as ->.
    { apply map_eq. intros v. rewrite lookup_alter.
      destruct (decide (u = v)) as [->|]; [by rewrite Hx | done]. }
    by destruct w.
Qed.

Lemma receiveInTrackRTP_packets u pkts rest :
  ∀ x w, users w !! u = Some x →
  receiveInTrackRTP u (map ReadPacket pkts ++ rest) w
  = receiveInTrackRTP u rest (enqueues u pkts w).
Proof.
  induction pkts as [|pkt pkts IH]; intros x w Hx; simpl.
  - by rewrite enqueues_nil.
  - rewrite (bind_Ret _ _ _ _ _ (deref_eq _ _ _ Hx)).
    rewrite (bind_Ret _ _ _ _ _ (modify_eq _ _ _ _ Hx)).
    rewrite (IH _ _ (users_upd _ _ _)).
    rewrite (enqueues_eq _ _ _ _ (users_upd _ _ _)), upd_upd.
    rewrite (enqueues_eq _ _ _ _ Hx). simpl.
    by rewrite <- app_assoc.
Qed.

Section Packets.

Context (fw : Framework).

(** C5, as the code has it: after the packets read so far have been put
    on the packet channel, a read that returns [io.EOF] makes
    [receiveInTrackRTP] return, and a read that returns any other error
    makes it log the error and end the process ([log.Fatalf]). *)
Theorem receiveInTrackRTP_read_error (u : Z) (x : User) (pkts : list rtp.Packet)
    (err : error) (rest : list ReadResult) (w : World) :
  users w !! u = Some x →
  receiveInTrackRTP u (map ReadPacket pkts ++ ReadError err :: rest) w
  = if decide (err = io_EOF)
    then Ret Returned (enqueues u pkts w)
    else Fatal (logs (LogLine [Str "rtp err => %v"; Str (Sprint err)])
                  (enqueues u pkts w)).
Proof.
  intros Hx. rewrite (receiveInTrackRTP_packets _ _ _ _ _ Hx). simpl.
  by destruct (decide (err = io_EOF)).
Qed.

Lemma WriteRTP_absent (u : Z) (x : User) (pkt : rtp.Packet) (w : World) :
  users w !! u = Some x →
  outTracks x !! rtp.SSRC pkt = None →
  WriteRTP fw u (Some pkt) w = Ret (Some errInvalidTrack) (logs (trackNil pkt) w).
Proof.
  intros Hx Hnone. unfold WriteRTP.
  rewrite (bind_Ret _ _ _ _ _ (deref_eq _ _ _ Hx)), Hnone.
  by rewrite (bind_Ret _ _ _ _ _ (emit_eq _ _)).
Qed.

Lemma WriteRTP_present (u : Z) (x : User) (pkt : rtp.Packet) (track : webrtc.Track)
    (w : World) :
  users w !! u = Some x →
  outTracks x !! rtp.SSRC pkt = Some track →
  WriteRTP fw u (Some pkt) w
  = Ret (fw_error fw u (pc x) (track_WriteRTP track pkt))
        (calls u (track_WriteRTP track pkt) w).
Proof.
  intros Hx Hsome. unfold WriteRTP.
  rewrite (bind_Ret _ _ _ _ _ (deref_eq _ _ _ Hx)), Hsome.
  by apply call_eq.
Qed.

(** C6: [WriteRTP] looks the packet's SSRC up in the user's outTracks.
    Without an entry it logs the missing track and returns
    [errInvalidTrack]: nothing is written, and only the log changes, so
    the user is neither stopped nor removed.  With an entry it calls
    [WriteRTP] on that track with the packet as it is, and returns what
    the track returns. *)
Theorem WriteRTP_by_SSRC (u : Z) (x : User) (pkt : rtp.Packet) (w : World) :
  users w !! u = Some x →
  (outTracks x !! rtp.SSRC pkt = None →
   WriteRTP fw u (Some pkt) w = Ret (Some errInvalidTrack) (logs (trackNil pkt) w)
   ∧ users (logs (trackNil pkt) w) = users w
   ∧ rooms (logs (trackNil pkt) w) = rooms w)
  ∧ (∀ track, outTracks x !! rtp.SSRC pkt = Some track →
     WriteRTP fw u (Some pkt) w
     = Ret (fw_error fw u (pc x) (track_WriteRTP track pkt))
           (calls u (track_WriteRTP track pkt) w)).
Proof.
  intros Hx. split.
  - intros Hnone. split; [|done]. by apply (WriteRTP_absent u x).
  - intros track Hsome. by apply WriteRTP_present.
Qed.

End Packets.

Lemma receiveInTrackRTP_read_error_witness :
  receiveInTrackRTP 1
    (map ReadPacket [Sample.packet 7000 1; Sample.packet 7000 2]
     ++ ReadError io_EOF :: [])
    Sample.published
  = Ret Returned
      (enqueues 1 [Sample.packet 7000 1; Sample.packet 7000 2] Sample.published).
Proof.
  refine (receiveInTrackRTP_read_error 1
            (with_inTrack (Some (Sample.remote 7000)) (Sample.newUser 1 "r1"))
            _ io_EOF [] Sample.published _).
  reflexivity.
Defined.

(** C5 as stated does not hold: a read error other than [io.EOF] ends the
    process, not only the user whose track failed. *)
Lemma receiveInTrackRTP_error_ends_process :
  errors_New "srtp: failed to decrypt" ≠ io_EOF
  ∧ alive (receiveInTrackRTP 1 [ReadError (errors_New "srtp: failed to decrypt")]
             Sample.published) = false.
Proof. split; [discriminate | reflexivity]. Qed.

Lemma WriteRTP_by_SSRC_witness :
  WriteRTP Sample.faulty 2 (Some (Sample.packet 7000 1)) Sample.published
  = Ret (Some (errors_New "io: read/write on closed pipe"))
      (calls 2 (track_WriteRTP (Sample.local 7000) (Sample.packet 7000 1))
         Sample.published).
Proof.
  refine (proj2 (WriteRTP_by_SSRC Sample.faulty 2
                   (with_outTracks {[ 7000%N := Sample.local 7000 ]}
                      (Sample.newUser 2 "r1"))
                   (Sample.packet 7000 1) Sample.published _) _ _).
  - reflexivity.
  - reflexivity.
Defined.

(** ** The fan-out loop *)

Section FanOut.

Context (fw : Framework).

Lemma forward_all (pkt : rtp.Packet) (snapshot : list Z) :
  ∀ w, NoDup snapshot →
  (∀ s, s ∈ snapshot → is_Some (users w !! s)) →
  ∃ w', forward fw snapshot (Some pkt) w = Ret tt w'
        ∧ rooms w' = rooms w
        ∧ (∃ ls, output w' = (output w ++ ls)%list)
        ∧ (∀ v, v ∉ snapshot → users w' !! v = users w !! v)
        ∧ (∀ s y, s ∈ snapshot → users w !! s = Some y → forwarded fw pkt w' s y).
Proof.
  induction snapshot as [|s rest IH]; intros w Hnd Hheap.
  { exists w. simpl. split; [done|]. split; [done|]. split; [by exists []; rewrite app_nil_r|].
    split; [done|]. intros s y Hs. by apply elem_of_nil in Hs. }
  apply NoDup_cons in Hnd as [Hs Hnd].
  destruct (Hheap s) as [y Hy]; [by left|].
  (* the write for [s] *)
  assert (∃ w1, (∀ k : unit → Proc unit,
                   bind (WriteRTP fw s (Some pkt))
                     (λ err, bind match err with
                                  | Some e => emit (OutLine [Str (Sprint e)])
                                  | None => ret tt
                                  end k) w = k tt w1)
                ∧ rooms w1 = rooms w
                ∧ (∃ ls, output w1 = (output w ++ ls)%list)
                ∧ (∀ v, v ≠ s → users w1 !! v = users w !! v)
                ∧ forwarded fw pkt w1 s y) as (w1 & Hrun & Hr1 & [ls1 Ho1] & Hu1 & Hf1).
  { unfold forwarded.
    destruct (outTracks y !! rtp.SSRC pkt) as [track|] eqn:Hlk.
    - pose proof (WriteRTP_present fw s y pkt track w Hy Hlk) as Hsome.
      destruct (fw_error fw s (pc y) (track_WriteRTP track pkt)) as [e|] eqn:He.
      + exists (logs (OutLine [Str (Sprint e)]) (calls s (track_WriteRTP track pkt) w)).
        split; [intros k; by rewrite (bind_Ret _ _ _ _ _ Hsome)|].
        split; [done|]. split; [by eexists|]. split.
        { intros v Hv. simpl. by apply users_calls_ne. }
        split; [by apply users_calls|].
        intros e' [= <-]. simpl. apply elem_of_app. right. by left.
      + exists (calls s (track_WriteRTP track pkt) w).
        split; [intros k; by rewrite (bind_Ret _ _ _ _ _ Hsome)|].
        split; [done|].
        split; [by exists []; rewrite app_nil_r|]. split.
        { intros v Hv. by apply users_calls_ne. }
        split; [by apply users_calls|]. intros e' [=].
    - pose proof (WriteRTP_absent fw s y pkt w Hy Hlk) as Hw.
      exists (logs (OutLine [Str (Sprint errInvalidTrack)]) (logs (trackNil pkt) w)).
      split; [intros k; by rewrite (bind_Ret _ _ _ _ _ Hw)|].
      split; [done|].
      split; [by eexists; simpl; rewrite <- app_assoc|].
      split; [done|]. split; [done|].
      simpl. apply elem_of_app. right. by left. }
  (* the rest of the snapshot *)
  destruct (IH w1 Hnd) as (w' & Hrest & Hr & [ls Ho] & Hu & Hf).
  { intros v Hv. rewrite Hu1; [apply Hheap; by right|]. intros ->. done. }
  exists w'. split.
  { rewrite <- Hrest. exact (Hrun (λ _, forward fw rest (Some pkt))). }
  split; [by rewrite Hr|].
  split; [by exists (ls1 ++ ls)%list; rewrite Ho, Ho1, app_assoc|].
  split.
  { intros v Hv. apply not_elem_of_cons in Hv as [Hvs Hv].
    by rewrite (Hu v Hv), (Hu1 v Hvs). }
  intros v yv Hv Hyv. apply elem_of_cons in Hv as [->|Hv].
  - (* [s] itself: untouched by the rest, its output is still there *)
    assert (yv = y) as -> by congruence.
    unfold forwarded in *.
    destruct (outTracks y !! rtp.SSRC pkt) as [track|].
    + destruct Hf1 as [Hs1 He1]. split; [by rewrite (Hu s Hs)|].
      intros e He. rewrite Ho. apply elem_of_app. left. by apply He1.
    + destruct Hf1 as [Hs1 He1]. split; [by rewrite (Hu s Hs)|].
      rewrite Ho. apply elem_of_app. by left.
  - apply Hf; [done|]. rewrite Hu1; [done|]. intros ->. done.
Qed.

End FanOut.

Section FanOutLoop.

Context (fw : Framework).

Lemma broadcastOne_forwards (u : Z) (x : User) (pkt : rtp.Packet)
    (queue : list rtp.Packet) (w : World) :
  users w !! u = Some x →
  rtpCh x = pkt :: queue →
  membersLive (room x) w →
  ∃ w', broadcastOne fw u w = Ret Returned w'
        ∧ rooms w' = rooms w
        ∧ users w' !! u = Some (with_rtpCh queue x)
        ∧ (∀ s y, s ∈ Room.members (room x) w → s ≠ u →
                  users w !! s = Some y → forwarded fw pkt w' s y).
Proof.
  intros Hx Hq Hlive.
  set (w0 := upd u (with_rtpCh queue x) w).
  assert (ReadRTP u w = Ret (Some (Some pkt, None)) w0) as Hread.
  { unfold ReadRTP. rewrite (bind_Ret _ _ _ _ _ (deref_eq _ _ _ Hx)), Hq.
    by rewrite (bind_Ret _ _ _ _ _ (modify_eq _ _ _ _ Hx)). }
  set (snapshot := elements (Room.members (room x) w ∖ {[u]})).
  destruct (forward_all fw pkt snapshot w0) as (w' & Hfw & Hr & _ & Hout & Hin).
  { apply NoDup_elements. }
  { intros s Hs. apply elem_of_elements, elem_of_difference in Hs as [Hs Hne].
    unfold w0. rewrite users_upd_ne; [by apply Hlive|].
    intros ->. apply Hne. by apply elem_of_singleton. }
  exists w'. split; [|split; [done|split]].
  - unfold broadcastOne. rewrite (bind_Ret _ _ _ _ _ Hread). cbv beta iota.
    rewrite (bind_Ret _ _ _ _ _ (deref_eq u _ w0 (users_upd _ _ _))).
    assert (Room.GetOtherUsers (room x) u w0 = Ret snapshot w0) as Hsnap by done.
    rewrite (bind_Ret _ _ _ _ _ Hsnap).
    by rewrite (bind_Ret _ _ _ _ _ Hfw).
  - rewrite Hout; [apply users_upd|].
    intros Hu. apply elem_of_elements, elem_of_difference in Hu as [_ Hu].
    apply Hu. by apply elem_of_singleton.
  - intros s y Hs Hne Hy. apply Hin.
    + apply elem_of_elements, elem_of_difference. split; [done|].
      intros ?%elem_of_singleton. done.
    + unfold w0. by rewrite users_upd_ne.
Qed.

Lemma forwarded_live pkt w' s y : forwarded fw pkt w' s y → is_Some (users w' !! s).
Proof.
  unfold forwarded. destruct (outTracks y !! rtp.SSRC pkt); intros [-> _]; by eexists.
Qed.



End FanOutLoop.


(** ** Renegotiation *)

Section Renegotiation.

Context (fw : Framework).

Lemma AddTrack_accepted (B : Z) (y : User) (ssrc : N) (w : World) :
  users w !! B = Some y →
  accepts fw ssrc B y →
  AddTrack fw B ssrc w
  = Ret None
      (upd B (with_outTracks (<[ssrc := pionTrack ssrc]> (outTracks y))
                (with_pc (pc y ++ [newTrackCall ssrc; pc_AddTrack (pionTrack ssrc)]) y)) w).
Proof.
  intros Hy [Hnew Hadd]. unfold AddTrack.
  assert (NewTrack fw B webrtc.DefaultPayloadTypeOpus ssrc "pion" "pion" w
          = Ret (pionTrack ssrc, None) (calls B (newTrackCall ssrc) w)) as HN.
  { unfold NewTrack. fold (newTrackCall ssrc).
    by rewrite (bind_Ret _ _ _ _ _ (call_eq fw _ _ _ _ Hy)), Hnew. }
  rewrite (bind_Ret _ _ _ _ _ HN). cbn [fst snd]. cbv zeta.
  rewrite (bind_Ret _ _ _ _ _ (call_eq fw _ _ _ _ (users_calls _ _ _ _ Hy))).
  cbn [pc with_pc]. rewrite Hadd.
  rewrite (calls_eq _ _ _ _ Hy).
  rewrite (calls_eq _ _ _ _ (users_upd _ _ _)), upd_upd.
  rewrite (bind_Ret _ _ _ _ _ (deref_eq _ _ _ (users_upd _ _ _))).
  rewrite (bind_Ret _ _ _ _ _ (modify_eq _ _ _ _ (users_upd _ _ _))), upd_upd.
  simpl. by rewrite <- app_assoc.
Qed.


End Renegotiation.

Section OnTrack.

Context (fw : Framework).




End OnTrack.


(** when the framework refuses a track to one of the other members, the
    handler panics *)
Example OnTrack_rejected_panics :
  ∃ w', OnTrack Sample.rejecting 1 (Sample.remote 7000) Sample.fresh
        = Panic (errors_New "codec not found") w'.
Proof. eexists. vm_compute. reflexivity. Qed.

(** ** Connection state *)

(** whatever the new state, the handler only writes log lines *)
Lemma OnICEConnectionStateChange_only_logs (user : Z) (x : User)
    (connectionState : webrtc.ICEConnectionState) (w : World) :
  users w !! user = Some x →
  ∃ ls, OnICEConnectionStateChange user connectionState w
        = Ret tt (with_output (output w ++ ls) w).
Proof.
  intros Hx. unfold OnICEConnectionStateChange.
  rewrite (bind_Ret _ _ _ _ _ (emit_eq _ _)).
  assert (∀ l w0, users w0 = users w →
            (emit l ;; logMembersCount user) w0
            = Ret tt (logs (LogLine [Str "now members count is";
                                     Num (Z.of_nat (length (elements
                                            (Room.members (room x) w0))))])
                        (logs l w0))) as Hcount.
  { intros l w0 Hw0. rewrite (bind_Ret _ _ _ _ _ (emit_eq _ _)).
    unfold logMembersCount.
    assert (users (logs l w0) !! user = Some x) as Hx0 by (simpl; by rewrite Hw0).
    by rewrite (bind_Ret _ _ _ _ _ (deref_eq _ _ _ Hx0)). }
  destruct (decide (connectionState = webrtc.ICEConnectionStateConnected)).
  { rewrite Hcount by done. eexists. unfold logs, with_output. simpl.
    by rewrite <- !app_assoc. }
  destruct (decide (_ ∨ _)).
  { rewrite Hcount by done. eexists. unfold logs, with_output. simpl.
    by rewrite <- !app_assoc. }
  by eexists.
Qed.

(** C3, on the code: after the handler has run for state disconnected,
    the user is not marked stopped and is still a member of its room. *)
Theorem OnICEConnectionStateChange_disconnected :
  let o := OnICEConnectionStateChange 1 webrtc.ICEConnectionStateDisconnected
             Sample.fresh in
  alive o = true
  ∧ stop <$> users (final o) !! 1%Z = Some false
  ∧ 1%Z ∈ Room.members "r1" (final o)
  ∧ users (final o) = users Sample.fresh
  ∧ rooms (final o) = rooms Sample.fresh.
Proof.
  repeat split.
Qed.

(** the same holds for states failed and closed *)
Lemma OnICEConnectionStateChange_failed_closed :
  let o1 := OnICEConnectionStateChange 1 webrtc.ICEConnectionStateFailed Sample.fresh in
  let o2 := OnICEConnectionStateChange 1 webrtc.ICEConnectionStateClosed Sample.fresh in
  users (final o1) = users Sample.fresh ∧ rooms (final o1) = rooms Sample.fresh
  ∧ users (final o2) = users Sample.fresh ∧ rooms (final o2) = rooms Sample.fresh.
Proof. repeat split. Qed.

(** what the handler leaves out is done where the websocket read fails:
    there the user is marked stopped and leaves its room *)
Lemma readPumpExit_leaves :
  let o := readPumpExit 1 Sample.fresh in
  alive o = true
  ∧ stop <$> users (final o) !! 1%Z = Some true
  ∧ 1%Z ∉ Room.members "r1" (final o).
Proof.
  repeat split. apply (bool_decide_unpack _). by vm_compute.
Qed.

(** ** An offer from a user that has published *)

(** C2, on the code: the room of user 1 has no other member, and user 1
    has published SSRC 7000.  On an offer with OPUS, [HandleOffer] gives
    user 1 an outbound track for its own SSRC, and adds no receive-only
    transceiver although no other member has published. *)
Theorem HandleOffer_own_track :
  let o := HandleOffer Sample.reliable 1 Sample.opusOffer Sample.alone in
  alive o = true
  ∧ Room.members "r1" Sample.alone ∖ {[ 1%Z ]} = ∅
  ∧ (inTrack <$> users Sample.alone !! 1%Z) = Some (Some (Sample.remote 7000))
  ∧ (outTracks <$> users (final o) !! 1%Z) = Some {[ 7000%N := pionTrack 7000 ]}
  ∧ (pc <$> users (final o) !! 1%Z)
    = Some [ newTrackCall 7000; pc_AddTrack (pionTrack 7000);
             pc_SetRemoteDescription Sample.opusOffer; pc_CreateAnswer;
             pc_SetLocalDescription (Sample.description 1 [] webrtc.SDPTypeAnswer) ].
Proof.
  repeat split.
Qed.

(** * More of user.go *)

(** ** Room identifiers *)

Lemma roomID_app (a b : string) :
  roomID (String.append a b) = String.append (roomID a) (roomID b).
Proof.
  induction a as [|c a IH]; simpl; [done|].
  destruct (Ascii.eqb c slash); simpl; by rewrite IH.
Qed.

Lemma roomID_no_slash (path : string) :
  ∀ c, List.In c (String.list_ascii_of_string (roomID path)) → c ≠ slash.
Proof.
  induction path as [|c' path IH]; simpl; intros c Hc; [done|].
  destruct (Ascii.eqb c' slash) eqn:Heq; [by apply IH|].
  simpl in Hc. destruct Hc as [<-|Hc]; [|by apply IH].
  by apply Ascii.eqb_neq.
Qed.

(** X1: the room identifier has no '/', and a '/' anywhere in the path
    does not change it: paths that differ only in slashes name one room. *)
Theorem roomID_ignores_slashes (a b : string) :
  roomID (String.append a (String slash b)) = roomID (String.append a b)
  ∧ (∀ c, List.In c (String.list_ascii_of_string (roomID (String.append a b))) → c ≠ slash)
  ∧ roomID (roomID (String.append a b)) = roomID (String.append a b).
Proof.
  split; [|split].
  - rewrite !roomID_app. reflexivity.
  - apply roomID_no_slash.
  - generalize (String.append a b). intros p.
    induction p as [|c p IH]; simpl; [done|].
    destruct (Ascii.eqb c slash) eqn:Heq; [done|].
    simpl. by rewrite Heq, IH.
Qed.

(** ** The codec check *)

Lemma opusPayloadType_first (pre post : list webrtc.RTPCodec) (c : webrtc.RTPCodec) :
  (∀ c', c' ∈ pre → webrtc.Name c' ≠ "OPUS") →
  webrtc.Name c = "OPUS" →
  opusPayloadType (pre ++ c :: post) = webrtc.PayloadType c.
Proof.
  intros Hpre Hc. induction pre as [|c' pre IH]; simpl.
  - apply String.eqb_eq in Hc. by rewrite Hc.
  - assert (webrtc.Name c' ≠ "OPUS") as Hc' by (apply Hpre; left).
    apply String.eqb_neq in Hc'. rewrite Hc'.
    apply IH. intros c'' Hc''. apply Hpre. by right.
Qed.

(** X2: the first audio codec named OPUS decides [supportOpus], whatever
    follows it: the offer is supported exactly when that codec's payload
    type is not 0. *)
Theorem supportOpus_first_OPUS (fw : Framework) (offer : webrtc.SessionDescription)
    (pre post : list webrtc.RTPCodec) (c : webrtc.RTPCodec) :
  fw_audioCodecs fw offer = pre ++ c :: post →
  (∀ c', c' ∈ pre → webrtc.Name c' ≠ "OPUS") →
  webrtc.Name c = "OPUS" →
  supportOpus fw offer = bool_decide (webrtc.PayloadType c ≠ 0%N).
Proof.
  intros Hl Hpre Hc. unfold supportOpus.
  rewrite Hl, (opusPayloadType_first _ _ _ Hpre Hc).
  destruct (N.eqb_spec (webrtc.PayloadType c) 0) as [->|Hne].
  - by rewrite bool_decide_eq_false_2 by (intros H; by apply H).
  - by rewrite bool_decide_eq_true_2.
Qed.

Lemma supportOpus_first_OPUS_witness :
  supportOpus Scenario.reliable Scenario.oddOffer = false.
Proof.
  refine (supportOpus_first_OPUS Scenario.reliable Scenario.oddOffer
            [ {| webrtc.Name := "PCMA"; webrtc.PayloadType := 8 |} ]
            [ {| webrtc.Name := "OPUS"; webrtc.PayloadType := 111 |} ]
            {| webrtc.Name := "OPUS"; webrtc.PayloadType := 0 |} _ _ _).
  - reflexivity.
  - intros c Hc. apply list_elem_of_singleton in Hc as ->. discriminate.
  - reflexivity.
Defined.

(** ** What the handlers keep *)

Lemma keeps_refl x : keeps x x.
Proof. repeat split; done. Qed.

Lemma keeps_trans x y z : keeps x y → keeps y z → keeps x z.
Proof.
  intros (H1 & H2 & H3 & H4 & H5 & H6 & H7) (G1 & G2 & G3 & G4 & G5 & G6 & G7).
  repeat split; try congruence; by etrans.
Qed.

Lemma advances_refl w : advances w w.
Proof.
  split; [done|]. split; [done|]. intros v.
  destruct (users w !! v) as [x|] eqn:Hx; [|done].
  exists x. split; [done|apply keeps_refl].
Qed.

Lemma advances_trans w1 w2 w3 : advances w1 w2 → advances w2 w3 → advances w1 w3.
Proof.
  intros (Hr & Ho & Hu) (Hr' & Ho' & Hu').
  split; [congruence|]. split; [by etrans|]. intros v.
  specialize (Hu v). specialize (Hu' v).
  destruct (users w1 !! v) as [x|].
  - destruct Hu as (y & Hy & Hxy). rewrite Hy in Hu'.
    destruct Hu' as (z & Hz & Hyz). exists z. split; [done|by eapply keeps_trans].
  - by rewrite Hu in Hu'.
Qed.

Lemma advances_logs l w : advances w (logs l w).
Proof.
  split; [done|]. split; [by apply prefix_app_r|]. intros v. simpl.
  destruct (users w !! v) as [x|]; [|done].
  exists x. split; [done|apply keeps_refl].
Qed.

Lemma advances_upd u x x' w :
  users w !! u = Some x → keeps x x' → advances w (upd u x' w).
Proof.
  intros Hx Hk. split; [done|]. split; [done|]. intros v.
  destruct (decide (u = v)) as [<-|Hne].
  - rewrite Hx. exists x'. split; [apply users_upd|done].
  - rewrite (users_upd_ne _ _ _ _ Hne).
    destruct (users w !! v) as [y|]; [|done].
    exists y. split; [done|apply keeps_refl].
Qed.

Lemma steady_ret {A} (a : A) : steady (ret a).
Proof. intros w. apply advances_refl. Qed.

Lemma steady_panic {A} (e : error) : steady (@panic A e).
Proof. intros w. apply advances_refl. Qed.


Lemma steady_bind {A B} (m : Proc A) (k : A → Proc B) :
  steady m → (∀ a, steady (k a)) → steady (bind m k).
Proof.
  intros Hm Hk w. unfold bind. specialize (Hm w).
  destruct (m w) as [a w'|e w'|w']; simpl in *; [|done..].
  eapply advances_trans; [done|apply Hk].
Qed.

Lemma steady_emit l : steady (emit l).
Proof. intros w. apply advances_logs. Qed.

Lemma steady_deref u : steady (deref u).
Proof. intros w. unfold deref. destruct (users w !! u); apply advances_refl. Qed.

Lemma steady_modify u f : (∀ x, keeps x (f x)) → steady (modify u f).
Proof.
  intros Hf w. unfold modify, bind, deref.
  destruct (users w !! u) as [x|] eqn:Hx; simpl; [|apply advances_refl].
  by apply (advances_upd u x).
Qed.

(** an assignment through [u] of a record built from what [u] was just
    read as *)
Lemma steady_deref_modify {B} u (F : User → User → User) (k : User → Proc B) :
  (∀ x, keeps x (F x x)) → (∀ x, steady (k x)) →
  steady (bind (deref u) (λ x, bind (modify u (F x)) (λ _, k x))).
Proof.
  intros HF Hk w. unfold bind at 1. unfold deref at 1.
  destruct (users w !! u) as [x|] eqn:Hx; simpl; [|apply advances_refl].
  rewrite (bind_Ret _ _ _ _ _ (modify_eq _ _ _ _ Hx)).
  eapply advances_trans; [by apply (advances_upd u x), HF|apply Hk].
Qed.

Lemma steady_GetUsers r : steady (Room.GetUsers r).
Proof. intros w. apply advances_refl. Qed.

Lemma steady_GetOtherUsers r u : steady (Room.GetOtherUsers r u).
Proof. intros w. apply advances_refl. Qed.

Lemma keeps_with_pc x c : keeps x (with_pc (pc x ++ c) x).
Proof. repeat split; try done. by apply prefix_app_r. Qed.

Lemma keeps_with_send x c : keeps x (with_send (send x ++ c) x).
Proof. repeat split; try done. by apply prefix_app_r. Qed.

Lemma keeps_with_rtpCh x v : keeps x (with_rtpCh v x).
Proof. repeat split; done. Qed.

Lemma keeps_with_inTrack x v : keeps x (with_inTrack v x).
Proof. repeat split; done. Qed.

Lemma keeps_with_outTracks x k t : keeps x (with_outTracks (<[k := t]> (outTracks x)) x).
Proof. repeat split; try done. simpl. rewrite dom_insert. set_solver. Qed.

(** one step of a proof that a handler is steady *)
Ltac steady_step :=
  lazymatch goal with
  | |- steady (bind _ _) => apply steady_bind; [|intros ?]
  | |- steady (ret _) => apply steady_ret
  | |- steady (panic _) => apply steady_panic
  | |- steady (emit _) => apply steady_emit
  | |- steady (deref _) => apply steady_deref
  | |- steady (Room.GetUsers _) => apply steady_GetUsers
  | |- steady (Room.GetOtherUsers _ _) => apply steady_GetOtherUsers
  | |- steady (if ?b then _ else _) => destruct b
  | |- steady (match ?o with _ => _ end) => destruct o
  end.

Section Steady.

Context (fw : Framework).

Lemma steady_call u c : steady (call fw u c).
Proof.
  unfold call.
  apply (steady_deref_modify u (λ x, with_pc (pc x ++ [c]))).
  - intros x. apply keeps_with_pc.
  - intros x. apply steady_ret.
Qed.

Lemma steady_SendJSON u ev : steady (SendJSON u ev).
Proof.
  unfold SendJSON.
  apply (steady_deref_modify u (λ x, with_send (send x ++ [ev]))).
  - intros x. apply keeps_with_send.
  - intros x. apply steady_ret.
Qed.

Lemma steady_create u c ty : steady (create fw u c ty).
Proof. unfold create. repeat steady_step. apply steady_call. Qed.

Lemma steady_AddTrack u ssrc : steady (AddTrack fw u ssrc).
Proof.
  unfold AddTrack, NewTrack.
  apply steady_bind; [apply steady_bind; [apply steady_call|intros; apply steady_ret]|].
  intros r. destruct (r.2); [apply steady_ret|]. cbv zeta.
  apply steady_bind; [apply steady_call|]. intros [e|].
  - repeat steady_step.
  - apply (steady_deref_modify u
             (λ x, with_outTracks (<[webrtc.SSRC r.1 := r.1]> (outTracks x)))).
    + intros x. apply keeps_with_outTracks.
    + intros x. apply steady_ret.
Qed.

Lemma steady_Offer u : steady (Offer fw u).
Proof.
  unfold Offer. apply steady_bind; [apply steady_create|]. intros r.
  destruct (r.2); [apply steady_ret|].
  apply steady_bind; [apply steady_call|]. intros [e|]; apply steady_ret.
Qed.

Lemma steady_SendOffer u : steady (SendOffer fw u).
Proof.
  unfold SendOffer. apply steady_bind; [apply steady_Offer|]. intros r. cbv zeta.
  apply steady_bind; [apply steady_SendJSON|]. intros [e|]; repeat steady_step.
Qed.

Lemma steady_Answer u : steady (Answer fw u).
Proof.
  unfold Answer. apply steady_bind; [apply steady_create|]. intros r.
  destruct (r.2); [apply steady_ret|].
  apply steady_bind; [apply steady_call|]. intros [e|]; apply steady_ret.
Qed.

Lemma steady_SendAnswer u : steady (SendAnswer fw u).
Proof.
  unfold SendAnswer. apply steady_bind; [apply steady_Answer|]. intros r.
  destruct (r.2); [apply steady_ret|].
  apply steady_bind; [apply steady_SendJSON|]. intros; apply steady_ret.
Qed.

Lemma steady_inTracks l : steady (inTracks l).
Proof. induction l as [|i l IH]; simpl; repeat steady_step. apply IH. Qed.

Lemma steady_GetRoomTracks u : steady (GetRoomTracks u).
Proof. unfold GetRoomTracks. repeat steady_step. apply steady_inTracks. Qed.

Lemma steady_attach u tracks : steady (attach fw u tracks).
Proof.
  induction tracks as [|t tracks IH]; simpl; [apply steady_ret|].
  apply steady_bind; [apply steady_AddTrack|]. intros [e|]; [|apply IH].
  repeat steady_step.
Qed.

Lemma steady_HandleOffer u offer : steady (HandleOffer fw u offer).
Proof.
  unfold HandleOffer. destruct (supportOpus fw offer); [|apply steady_ret].
  apply steady_bind; [apply steady_GetRoomTracks|]. intros tracks.
  apply steady_bind.
  { destruct (Nat.eqb _ _); [apply steady_call|apply steady_ret]. }
  intros [e|]; [apply steady_ret|].
  apply steady_bind; [apply steady_emit|]. intros _.
  apply steady_bind; [apply steady_attach|]. intros _.
  apply steady_bind; [apply steady_call|]. intros [e|]; [apply steady_ret|].
  apply steady_SendAnswer.
Qed.

Lemma steady_SendErr u e : steady (SendErr u e).
Proof. apply steady_SendJSON. Qed.

Lemma steady_HandleEvent u m : steady (HandleEvent fw u m).
Proof.
  unfold HandleEvent. destruct m as [e| |ev]; [apply steady_ret|apply steady_panic|].
  apply steady_bind; [apply steady_emit|]. intros _.
  destruct (String.eqb _ _).
  { destruct (Offer_ ev); [apply steady_HandleOffer|apply steady_SendErr]. }
  destruct (String.eqb _ _).
  { destruct (Answer_ ev); [|apply steady_SendErr].
    apply steady_bind; [apply steady_call|]. intros; apply steady_ret. }
  destruct (String.eqb _ _); [|apply steady_SendErr].
  destruct (Candidate_ ev); [|apply steady_SendErr].
  apply steady_bind; [apply steady_emit|]. intros _.
  apply steady_bind; [apply steady_call|]. intros; apply steady_ret.
Qed.

Lemma steady_handleMessage u m : steady (handleMessage fw u m).
Proof.
  unfold handleMessage. apply steady_bind; [apply steady_HandleEvent|].
  intros [e|]; [|apply steady_ret].
  apply steady_bind; [apply steady_emit|]. intros _.
  apply steady_bind; [apply steady_SendErr|]. intros; apply steady_ret.
Qed.

Lemma steady_WriteRTP u pkt : steady (WriteRTP fw u pkt).
Proof.
  unfold WriteRTP. destruct pkt as [p|]; [|apply steady_ret].
  apply steady_bind; [apply steady_deref|]. intros x.
  destruct (outTracks x !! _); [apply steady_call|].
  repeat steady_step.
Qed.

Lemma steady_forward l pkt : steady (forward fw l pkt).
Proof.
  induction l as [|s l IH]; simpl; [apply steady_ret|].
  apply steady_bind; [apply steady_WriteRTP|]. intros err.
  apply steady_bind; [destruct err; [apply steady_emit|apply steady_ret]|].
  intros _. apply IH.
Qed.

Lemma steady_ReadRTP u : steady (ReadRTP u).
Proof.
  unfold ReadRTP. apply steady_bind; [apply steady_deref|]. intros x.
  destruct (rtpCh x) as [|pkt rest].
  - destruct (rtpChClosed x); apply steady_ret.
  - apply steady_bind; [|intros; apply steady_ret].
    apply steady_modify. intros x0. apply keeps_with_rtpCh.
Qed.

Lemma steady_broadcastOne u : steady (broadcastOne fw u).
Proof.
  unfold broadcastOne. apply steady_bind; [apply steady_ReadRTP|].
  intros [[pkt [e|]]|]; [apply steady_panic| |apply steady_ret].
  repeat steady_step. apply steady_forward.
Qed.



Lemma steady_renegotiate l ssrc : steady (renegotiate fw l ssrc).
Proof.
  induction l as [|B l IH]; simpl; [apply steady_ret|].
  apply steady_bind; [apply steady_AddTrack|]. intros [e|]; [apply steady_panic|].
  apply steady_bind; [apply steady_SendOffer|]. intros [e|]; [apply steady_panic|].
  apply IH.
Qed.

Lemma steady_OnTrack user remoteTrack : steady (OnTrack fw user remoteTrack).
Proof.
  unfold OnTrack. apply steady_bind; [apply steady_deref|]. intros x.
  apply steady_bind; [apply steady_emit|]. intros _.
  apply steady_bind; [apply steady_modify; intros; apply keeps_with_inTrack|].
  intros _.
  apply steady_bind; [apply steady_GetOtherUsers|]. intros snapshot.
  apply steady_bind; [apply steady_renegotiate|]. intros _. apply steady_emit.
Qed.

End Steady.

(** X3: whatever message arrives and however its handling ends,
    [handleMessage] takes nothing back: rooms and their members are the
    same, no user is added, removed, stopped or moved, no outbound track
    is removed, and send channels, connection histories and the output
    only grow. *)
Theorem handleMessage_takes_nothing_back (fw : Framework) (u : Z)
    (message : Unmarshalled) (w : World) :
  advances w (final (handleMessage fw u message w)).
Proof. apply steady_handleMessage. Qed.

(** X4: the same holds of the [OnTrack] handler, also when it panics
    half-way through the other members. *)
Theorem OnTrack_takes_nothing_back (fw : Framework) (user : Z)
    (remoteTrack : webrtc.Track) (w : World) :
  advances w (final (OnTrack fw user remoteTrack w)).
Proof. apply steady_OnTrack. Qed.


(** ** Messages that carry a payload, or do not decode *)

Section Messages.

Context (fw : Framework).

(** X6: an answer or a candidate with its payload is passed to the peer
    connection and [HandleEvent] returns nil whatever the framework
    returns: when the framework refuses it, the client is not told. *)
Theorem HandleEvent_answer_candidate (u : Z) (x : User) (ev : Event) (w : World) :
  users w !! u = Some x →
  (∀ answer, Type_ ev = "answer" → Answer_ ev = Some answer →
     let w' := calls u (pc_SetRemoteDescription answer) (logs (handled ev) w) in
     HandleEvent fw u (UnmarshalEvent ev) w = Ret None w'
     ∧ handleMessage fw u (UnmarshalEvent ev) w = Ret tt w'
     ∧ send <$> users w' !! u = Some (send x))
  ∧ (∀ candidate, Type_ ev = "candidate" → Candidate_ ev = Some candidate →
     let w' := calls u (pc_AddICECandidate candidate)
                 (logs (LogLine [Str "adding candidate";
                                 Str (webrtc.Candidate candidate)])
                    (logs (handled ev) w)) in
     HandleEvent fw u (UnmarshalEvent ev) w = Ret None w'
     ∧ handleMessage fw u (UnmarshalEvent ev) w = Ret tt w'
     ∧ send <$> users w' !! u = Some (send x)).
Proof.
  intros Hx. split.
  - intros answer Hty Hans w'.
    assert (HandleEvent fw u (UnmarshalEvent ev) w = Ret None w') as HE.
    { unfold HandleEvent.
      rewrite (bind_Ret _ _ _ _ _ (emit_eq _ _)), Hans.
      destruct ev as [ty o a c de]. simpl in *. subst ty. simpl.
      by rewrite (bind_Ret _ _ _ _ _ (call_eq fw u x _ (logs _ w) Hx)). }
    split; [done|]. split.
    + unfold handleMessage. by rewrite (bind_Ret _ _ _ _ _ HE).
    + unfold w'. by rewrite (users_calls u x _ (logs _ w) Hx).
  - intros candidate Hty Hc w'.
    assert (HandleEvent fw u (UnmarshalEvent ev) w = Ret None w') as HE.
    { unfold HandleEvent.
      rewrite (bind_Ret _ _ _ _ _ (emit_eq _ _)), Hc.
      destruct ev as [ty o a c de]. simpl in *. subst ty. simpl.
      rewrite (bind_Ret _ _ _ _ _ (emit_eq _ _)).
      by rewrite (bind_Ret _ _ _ _ _ (call_eq fw u x _ (logs _ (logs _ w)) Hx)). }
    split; [done|]. split.
    + unfold handleMessage. by rewrite (bind_Ret _ _ _ _ _ HE).
    + unfold w'. by rewrite (users_calls u x _ (logs _ (logs _ w)) Hx).
Qed.

(** X7: a message that does not decode is answered with an error event
    that carries the decoder's error; the JSON text null, which decodes
    to a nil event, makes the handling task panic. *)
Theorem handleMessage_undecodable (u : Z) (x : User) (e : error) (w : World) :
  users w !! u = Some x →
  handleMessage fw u (UnmarshalError e) w
  = Ret tt (sends u (errorEvent e) (logs (LogLine [Str (Sprint e)]) w))
  ∧ handleMessage fw u UnmarshalNil w = Panic nilDereference w.
Proof.
  intros Hx. split; [|done].
  unfold handleMessage, HandleEvent.
  rewrite (bind_Ret _ _ _ _ _ (eq_refl : ret (Some e) w = Ret (Some e) w)).
  rewrite (bind_Ret _ _ _ _ _ (emit_eq _ _)).
  by rewrite (bind_Ret _ _ _ _ _ (SendErr_eq u x _ (logs _ w) Hx)).
Qed.

End Messages.

Lemma HandleEvent_answer_candidate_witness :
  handleMessage Sample.faulty 2
    (UnmarshalEvent (answerEvent Sample.opusOffer)) Sample.fresh
  = Ret tt (calls 2 (pc_SetRemoteDescription Sample.opusOffer)
              (logs (LogLine [Str "handle event"; Str "answer"]) Sample.fresh)).
Proof.
  refine (proj1 (proj2 (proj1 (HandleEvent_answer_candidate Sample.faulty 2
            (Sample.newUser 2 "r1") (answerEvent Sample.opusOffer) Sample.fresh _)
            Sample.opusOffer _ _))).
  - reflexivity.
  - reflexivity.
  - reflexivity.
Defined.

Lemma handleMessage_undecodable_witness :
  handleMessage Sample.reliable 1
    (UnmarshalError (errors_New "unexpected end of JSON input")) Sample.fresh
  = Ret tt (sends 1 (errorEvent (errors_New "unexpected end of JSON input"))
              (logs (LogLine [Str "unexpected end of JSON input"]) Sample.fresh)).
Proof.
  refine (proj1 (handleMessage_undecodable Sample.reliable 1 (Sample.newUser 1 "r1")
                   _ Sample.fresh _)).
  reflexivity.
Defined.

(** ** The two pumps *)

Lemma readPumpExit_eq (u : Z) (x : User) (w : World) :
  users w !! u = Some x →
  readPumpExit u w
  = Ret tt (with_rooms (alter (λ s, s ∖ {[u]}) (room x) (rooms w))
              (upd u (with_stop true x) w)).
Proof.
  intros Hx. unfold readPumpExit.
  rewrite (bind_Ret _ _ _ _ _ (modify_eq _ _ _ _ Hx)).
  by rewrite (bind_Ret _ _ _ _ _ (deref_eq _ _ _ (users_upd _ _ _))).
Qed.

Section Pumps.

Context (fw : Framework).

(** X8: when a read of the websocket fails, [readPump] returns with the
    user marked stopped and taken out of its room, whatever messages it
    handled before (as long as no handling task panicked); the other
    members of the room and the other rooms are as the handlers left
    them, which is as they were. *)
Theorem readPump_read_error (u : Z) (messages : list Unmarshalled) (err : error)
    (unexpected : bool) (rest : list ReadMessage) :
  ∀ (x : User) (w : World),
  users w !! u = Some x →
  let o := readPump fw u (map Message messages ++ ReadFailed err unexpected :: rest) w in
  alive o = true →
  o = Ret Returned (final o)
  ∧ stop <$> users (final o) !! u = Some true
  ∧ Room.members (room x) (final o) = Room.members (room x) w ∖ {[u]}
  ∧ ∀ r, r ≠ room x → rooms (final o) !! r = rooms w !! r.
Proof.
  induction messages as [|m messages IH]; intros x w Hx; simpl.
  - intros _.
    assert (∀ w0, users w0 = users w → rooms w0 = rooms w →
              let o := (readPumpExit u ;; ret Returned) w0 in
              o = Ret Returned (final o)
              ∧ stop <$> users (final o) !! u = Some true
              ∧ Room.members (room x) (final o) = Room.members (room x) w ∖ {[u]}
              ∧ ∀ r, r ≠ room x → rooms (final o) !! r = rooms w !! r) as Hexit.
    { intros w0 Hu0 Hr0.
      assert (users w0 !! u = Some x) as Hx0 by (by rewrite Hu0).
      cbv zeta. rewrite (bind_Ret _ _ _ _ _ (readPumpExit_eq u x w0 Hx0)).
      simpl. split; [done|]. split; [by rewrite lookup_insert_eq|]. split.
      - unfold Room.members. simpl. rewrite lookup_alter_eq, Hr0.
        destruct (rooms w !! room x); simpl; [done|by rewrite empty_difference_L].
      - intros r Hr. by rewrite lookup_alter_ne, Hr0. }
    rewrite (bind_Ret _ _ _ _ _ (emit_eq _ _)).
    destruct unexpected.
    + rewrite (bind_Ret _ _ _ _ _
                 (bind_Ret _ _ _ _ _ (emit_eq _ _) : (emit _ ;; emit _) _ = emit _ _)).
      by apply Hexit.
    + rewrite (bind_Ret _ _ _ _ _ (eq_refl : ret tt _ = Ret tt _)). by apply Hexit.
  - pose proof (steady_handleMessage fw u m w) as (Hr & _ & Hu).
    destruct (handleMessage fw u m w) as [[] w1|e w1|w1] eqn:HM.
    2,3: unfold bind; rewrite HM; simpl; intros [=].
    rewrite (bind_Ret _ _ _ _ _ HM). simpl in Hr, Hu.
    specialize (Hu u). rewrite Hx in Hu. destruct Hu as (x1 & Hx1 & Hk).
    intros Halive.
    destruct (IH x1 w1 Hx1 Halive) as (Ho & Hs & Hm & Hother).
    destruct Hk as (_ & Hroom & _). rewrite Hroom in *.
    split; [done|]. split; [done|]. split.
    + rewrite Hm. unfold Room.members. by rewrite Hr.
    + intros r Hne. rewrite (Hother r Hne). by rewrite Hr.
Qed.


End Pumps.

Lemma readPump_read_error_witness :
  stop <$> users (final (readPump Sample.reliable 1
                           (map Message [UnmarshalEvent (errorEvent io_EOF)]
                            ++ ReadFailed io_EOF false :: []) Sample.fresh)) !! 1%Z
  = Some true.
Proof.
  refine (proj1 (proj2 (readPump_read_error Sample.reliable 1
            [UnmarshalEvent (errorEvent io_EOF)] io_EOF false []
            (Sample.newUser 1 "r1") Sample.fresh _ _))).
  - reflexivity.
  - reflexivity.
Defined.


(** ** Candidates *)

(** X10: for a candidate the [OnICECandidate] handler puts one candidate
    event with the candidate's JSON form on the send channel and does
    nothing else; for nil, which ends the gathering, it does nothing, and
    [SendCandidate] refuses nil with an error. *)
Theorem OnICECandidate_sends {ICECandidate : Type}
    (ToJSON : ICECandidate → webrtc.ICECandidateInit)
    (user : Z) (x : User) (w : World) :
  users w !! user = Some x →
  (∀ c, OnICECandidate ToJSON user (Some c) w
        = Ret tt (sends user (candidateEvent (ToJSON c)) w))
  ∧ OnICECandidate ToJSON user None w = Ret tt w
  ∧ SendCandidate ToJSON user None w
    = Ret (Some (errors_New "nil ice candidate")) w.
Proof.
  intros Hx. split; [|done]. intros c.
  assert (SendCandidate ToJSON user (Some c) w
          = Ret None (sends user (candidateEvent (ToJSON c)) w)) as HS.
  { unfold SendCandidate. cbv zeta.
    by rewrite (bind_Ret _ _ _ _ _ (SendJSON_eq user x _ w Hx)). }
  unfold OnICECandidate. by rewrite (bind_Ret _ _ _ _ _ HS).
Qed.

Lemma OnICECandidate_sends_witness :
  OnICECandidate (λ c : string, {| webrtc.Candidate := c |}) 1 None Sample.fresh
  = Ret tt Sample.fresh.
Proof.
  refine (proj1 (proj2 (OnICECandidate_sends (λ c : string, {| webrtc.Candidate := c |})
                          1 (Sample.newUser 1 "r1") Sample.fresh _))).
  reflexivity.
Defined.

(** ** Outbound tracks *)

Section Tracks.

Context (fw : Framework).

(** X11: when the framework refuses the new track, at [NewTrack] or at
    [AddTrack], [AddTrack] returns the framework's error and the user's
    outbound tracks are what they were. *)
Theorem AddTrack_refused (u : Z) (y : User) (ssrc : N) (w : World) :
  users w !! u = Some y →
  ¬ accepts fw ssrc u y →
  ∃ e w', AddTrack fw u ssrc w = Ret (Some e) w'
          ∧ (fw_error fw u (pc y) (newTrackCall ssrc) = Some e
             ∨ fw_error fw u (pc y ++ [newTrackCall ssrc]) (pc_AddTrack (pionTrack ssrc))
               = Some e)
          ∧ outTracks <$> users w' !! u = Some (outTracks y)
          ∧ send <$> users w' !! u = Some (send y).
Proof.
  intros Hy Hno. unfold AddTrack.
  assert (NewTrack fw u webrtc.DefaultPayloadTypeOpus ssrc "pion" "pion" w
          = Ret (pionTrack ssrc, fw_error fw u (pc y) (newTrackCall ssrc))
                (calls u (newTrackCall ssrc) w)) as HN.
  { unfold NewTrack. fold (newTrackCall ssrc).
    by rewrite (bind_Ret _ _ _ _ _ (call_eq fw _ _ _ _ Hy)). }
  rewrite (bind_Ret _ _ _ _ _ HN). cbn [fst snd].
  destruct (fw_error fw u (pc y) (newTrackCall ssrc)) as [e|] eqn:Hnew.
  { exists e, (calls u (newTrackCall ssrc) w). split; [done|]. split; [by left|].
    by rewrite (users_calls _ _ _ _ Hy). }
  cbv zeta.
  rewrite (bind_Ret _ _ _ _ _ (call_eq fw _ _ _ _ (users_calls _ _ _ _ Hy))).
  cbn [pc with_pc].
  destruct (fw_error fw u (pc y ++ [newTrackCall ssrc]) (pc_AddTrack (pionTrack ssrc)))
    as [e|] eqn:Hadd.
  - exists e. eexists. rewrite (bind_Ret _ _ _ _ _ (emit_eq _ _)).
    split; [reflexivity|]. split; [by right|]. cbn [users logs with_output].
    by rewrite (users_calls _ _ _ _ (users_calls _ _ _ _ Hy)).
  - destruct Hno. by split.
Qed.

(** X12: after [AddTrack] has succeeded for a stream identifier,
    [WriteRTP] of a packet with that identifier writes the packet to the
    track just created. *)
Theorem AddTrack_then_WriteRTP (u : Z) (y : User) (pkt : rtp.Packet) (w : World) :
  users w !! u = Some y →
  accepts fw (rtp.SSRC pkt) u y →
  ∃ w1 y1, AddTrack fw u (rtp.SSRC pkt) w = Ret None w1
           ∧ users w1 !! u = Some y1
           ∧ WriteRTP fw u (Some pkt) w1
             = Ret (fw_error fw u (pc y1) (track_WriteRTP (pionTrack (rtp.SSRC pkt)) pkt))
                   (calls u (track_WriteRTP (pionTrack (rtp.SSRC pkt)) pkt) w1).
Proof.
  intros Hy Hacc. eexists _, _.
  split; [by apply AddTrack_accepted|]. split; [apply users_upd|].
  apply WriteRTP_present; [apply users_upd|]. simpl. apply lookup_insert_eq.
Qed.

(** X13: [AddTrack] for a stream identifier that already has an outbound
    track replaces the entry: the map keeps one track per identifier, of
    the same size as before, while the peer connection has been given a
    second track. *)
Theorem AddTrack_replaces (u : Z) (y : User) (ssrc : N) (old : webrtc.Track) (w : World) :
  users w !! u = Some y →
  outTracks y !! ssrc = Some old →
  accepts fw ssrc u y →
  ∃ w' y', AddTrack fw u ssrc w = Ret None w'
           ∧ users w' !! u = Some y'
           ∧ outTracks y' !! ssrc = Some (pionTrack ssrc)
           ∧ size (outTracks y') = size (outTracks y)
           ∧ (∀ k, k ≠ ssrc → outTracks y' !! k = outTracks y !! k)
           ∧ pc y' = pc y ++ [newTrackCall ssrc; pc_AddTrack (pionTrack ssrc)].
Proof.
  intros Hy Hold Hacc. eexists _, _.
  split; [by apply AddTrack_accepted|]. split; [apply users_upd|]. simpl.
  split; [apply lookup_insert_eq|]. split; [|split; [|done]].
  - rewrite <- (insert_delete_id (outTracks y) ssrc old Hold) at 2.
    rewrite <- (insert_delete_eq (outTracks y)) at 1.
    by rewrite !map_size_insert_None by apply lookup_delete_eq.
  - intros k Hk. by apply lookup_insert_ne.
Qed.

Lemma length_omap_le {A B} (f : A → option B) (l : list A) :
  (length (omap f l) ≤ length l)%nat.
Proof.
  induction l as [|a l IH]; [done|].
  change (omap f (a :: l)) with (match f a with Some b => b :: omap f l | None => omap f l end).
  destruct (f a); simpl; lia.
Qed.

Lemma inTracks_eq (l : list Z) (w : World) :
  Forall (λ i, is_Some (users w !! i)) l →
  inTracks l w = Ret (omap (λ i, users w !! i ≫= inTrack) l) w.
Proof.
  induction 1 as [|i l [a Ha] Hl IH]; simpl; [done|].
  rewrite (bind_Ret _ _ _ _ _ (deref_eq _ _ _ Ha)).
  rewrite (bind_Ret _ _ _ _ _ IH). rewrite Ha. simpl.
  by destruct (inTrack a).
Qed.

Lemma GetRoomTracks_eq (u : Z) (x : User) (w : World) :
  users w !! u = Some x →
  membersLive (room x) w →
  GetRoomTracks u w
  = Ret (omap (λ i, users w !! i ≫= inTrack) (elements (Room.members (room x) w))) w.
Proof.
  intros Hx Hlive. unfold GetRoomTracks.
  rewrite (bind_Ret _ _ _ _ _ (deref_eq _ _ _ Hx)).
  assert (Room.GetUsers (room x) w = Ret (elements (Room.members (room x) w)) w)
    as HG by done.
  rewrite (bind_Ret _ _ _ _ _ HG).
  apply inTracks_eq. apply Forall_forall. intros i Hi.
  apply Hlive. by apply elem_of_elements.
Qed.

(** X14: [GetRoomTracks] changes nothing and returns the inbound tracks
    of the members of the user's room that have one, the user's own
    included, each member's once. *)
Theorem GetRoomTracks_published (u : Z) (x : User) (w : World) :
  users w !! u = Some x →
  membersLive (room x) w →
  ∃ tracks,
    GetRoomTracks u w = Ret tracks w
    ∧ (∀ t, t ∈ tracks ↔ ∃ A a, A ∈ Room.members (room x) w
                                ∧ users w !! A = Some a ∧ inTrack a = Some t)
    ∧ (length tracks ≤ length (elements (Room.members (room x) w)))%nat
    ∧ (u ∈ Room.members (room x) w → ∀ t, inTrack x = Some t → t ∈ tracks).
Proof.
  intros Hx Hlive. eexists. split; [by apply GetRoomTracks_eq|].
  assert (∀ t, t ∈ omap (λ i, users w !! i ≫= inTrack)
                        (elements (Room.members (room x) w))
               ↔ ∃ A a, A ∈ Room.members (room x) w
                        ∧ users w !! A = Some a ∧ inTrack a = Some t) as Hiff.
  { intros t. rewrite list_elem_of_omap. split.
    - intros (A & HA & Ht). apply elem_of_elements in HA.
      destruct (users w !! A) as [a|] eqn:Ha; [|done]. by exists A, a.
    - intros (A & a & HA & Ha & Ht). exists A.
      split; [by apply elem_of_elements|]. by rewrite Ha. }
  split; [done|]. split.
  - apply length_omap_le.
  - intros Hu t Ht. apply Hiff. by exists u, x.
Qed.

End Tracks.

Lemma AddTrack_refused_witness :
  ∃ e w', AddTrack Sample.rejecting 3 7000 Sample.fresh = Ret (Some e) w'
          ∧ (fw_error Sample.rejecting 3 [] (newTrackCall 7000) = Some e
             ∨ fw_error Sample.rejecting 3 ([] ++ [newTrackCall 7000])
                 (pc_AddTrack (pionTrack 7000)) = Some e)
          ∧ outTracks <$> users w' !! 3%Z = Some ∅
          ∧ send <$> users w' !! 3%Z = Some [].
Proof.
  apply (AddTrack_refused Sample.rejecting 3 (Sample.newUser 3 "r1") 7000 Sample.fresh).
  - reflexivity.
  - intros [Hnew _]. discriminate Hnew.
Defined.

Lemma AddTrack_then_WriteRTP_witness :
  ∃ w1 y1, AddTrack Sample.reliable 2 7000 Sample.fresh = Ret None w1
           ∧ users w1 !! 2%Z = Some y1
           ∧ WriteRTP Sample.reliable 2 (Some (Sample.packet 7000 1)) w1
             = Ret None (calls 2 (track_WriteRTP (pionTrack 7000) (Sample.packet 7000 1)) w1).
Proof.
  apply (AddTrack_then_WriteRTP Sample.reliable 2 (Sample.newUser 2 "r1")
           (Sample.packet 7000 1) Sample.fresh).
  - reflexivity.
  - split; reflexivity.
Defined.

Lemma AddTrack_replaces_witness :
  ∃ w' y', AddTrack Sample.reliable 2 7000 Sample.published = Ret None w'
           ∧ users w' !! 2%Z = Some y'
           ∧ outTracks y' !! 7000%N = Some (pionTrack 7000)
           ∧ pc y' = [newTrackCall 7000; pc_AddTrack (pionTrack 7000)].
Proof.
  destruct (AddTrack_replaces Sample.reliable 2
              (with_outTracks {[ 7000%N := Sample.local 7000 ]} (Sample.newUser 2 "r1"))
              7000 (Sample.local 7000) Sample.published)
    as (w' & y' & Hrun & Hy' & Hnew & _ & _ & Hpc).
  - reflexivity.
  - reflexivity.
  - split; reflexivity.
  - by exists w', y'.
Defined.

Lemma GetRoomTracks_published_witness :
  ∃ tracks,
    GetRoomTracks 1 Sample.published = Ret tracks Sample.published
    ∧ (∀ t, t ∈ tracks ↔ ∃ A a, A ∈ Room.members "r1" Sample.published
                                ∧ users Sample.published !! A = Some a
                                ∧ inTrack a = Some t)
    ∧ (length tracks ≤ length (elements (Room.members "r1" Sample.published)))%nat
    ∧ (1%Z ∈ Room.members "r1" Sample.published →
       ∀ t, Some (Sample.remote 7000) = Some t → t ∈ tracks).
Proof.
  apply (GetRoomTracks_published 1
           (with_inTrack (Some (Sample.remote 7000)) (Sample.newUser 1 "r1"))
           Sample.published).
  - reflexivity.
  - unfold membersLive. apply (bool_decide_unpack _). vm_compute. exact I.
Defined.

(** ** Answering an offer *)

Lemma send_attached (l : list N) : ∀ y, send (attached l y) = send y.
Proof. induction l as [|s l IH]; intros y; simpl; [done|]. by rewrite IH. Qed.

Lemma pc_attached (l : list N) :
  ∀ y, pc (attached l y)
       = pc y ++ flat_map (λ s, [newTrackCall s; pc_AddTrack (pionTrack s)]) l.
Proof.
  induction l as [|s l IH]; intros y; simpl; [by rewrite app_nil_r|].
  rewrite IH. simpl. by rewrite <- app_assoc.
Qed.

Lemma outTracks_attached_notin (l : list N) (s : N) :
  ∀ y, s ∉ l → outTracks (attached l y) !! s = outTracks y !! s.
Proof.
  induction l as [|a l IH]; intros y Hs; simpl; [done|].
  apply not_elem_of_cons in Hs as [Hne Hs].
  rewrite IH by done. simpl. by apply lookup_insert_ne.
Qed.

Lemma outTracks_attached_in (l : list N) (s : N) :
  ∀ y, s ∈ l → outTracks (attached l y) !! s = Some (pionTrack s).
Proof.
  induction l as [|a l IH]; intros y Hs; simpl; [by apply elem_of_nil in Hs|].
  destruct (decide (s ∈ l)) as [Hin|Hnotin]; [by apply IH|].
  apply elem_of_cons in Hs as [->|Hs]; [|done].
  rewrite outTracks_attached_notin by done. simpl. apply lookup_insert_eq.
Qed.

Section Answering.

Context (fw : Framework).

Lemma attach_eq (u : Z) (tracks : list webrtc.Track) :
  tracksAccepted fw u →
  ∀ y w, users w !! u = Some y →
  attach fw u tracks w = Ret tt (upd u (attached (webrtc.SSRC <$> tracks) y) w).
Proof.
  intros Hacc. induction tracks as [|t tracks IH]; intros y w Hy; simpl.
  - by rewrite (upd_id _ _ _ Hy).
  - assert (accepts fw (webrtc.SSRC t) u y) as Hok.
    { split; apply Hacc. }
    rewrite (bind_Ret _ _ _ _ _ (AddTrack_accepted fw u y _ w Hy Hok)).
    rewrite (IH _ _ (users_upd _ _ _)). by rewrite upd_upd.
Qed.

Lemma Answer_eq (u : Z) (y : User) (w : World) :
  users w !! u = Some y →
  let d := fw_description fw u (pc y) webrtc.SDPTypeAnswer in
  let y1 := with_pc (pc y ++ [pc_CreateAnswer]) y in
  let y2 := with_pc (pc y ++ [pc_CreateAnswer; pc_SetLocalDescription d]) y in
  Answer fw u w
  = match fw_error fw u (pc y) pc_CreateAnswer with
    | Some e => Ret (webrtc.SessionDescription_zero, Some e) (upd u y1 w)
    | None =>
        match fw_error fw u (pc y ++ [pc_CreateAnswer]) (pc_SetLocalDescription d) with
        | Some e => Ret (webrtc.SessionDescription_zero, Some e) (upd u y2 w)
        | None => Ret (d, None) (upd u y2 w)
        end
    end.
Proof.
  intros Hy d y1 y2. unfold Answer.
  assert (create fw u pc_CreateAnswer webrtc.SDPTypeAnswer w
          = Ret (d, fw_error fw u (pc y) pc_CreateAnswer) (upd u y1 w)) as HC.
  { rewrite (create_eq fw _ _ _ _ _ Hy). by rewrite (calls_eq _ _ _ _ Hy). }
  rewrite (bind_Ret _ _ _ _ _ HC). cbn [fst snd].
  destruct (fw_error fw u (pc y) pc_CreateAnswer) as [e|]; [done|].
  assert (call fw u (pc_SetLocalDescription d) (upd u y1 w)
          = Ret (fw_error fw u (pc y ++ [pc_CreateAnswer]) (pc_SetLocalDescription d))
                (upd u y2 w)) as HL.
  { rewrite (call_eq fw _ _ _ _ (users_upd _ _ _)).
    rewrite (calls_eq _ _ _ _ (users_upd _ _ _)), upd_upd.
    unfold y2. simpl. by rewrite <- app_assoc. }
  rewrite (bind_Ret _ _ _ _ _ HL).
  by destruct (fw_error fw u (pc y ++ [pc_CreateAnswer]) (pc_SetLocalDescription d)).
Qed.

Lemma SendAnswer_eq (u : Z) (y : User) (w : World) :
  users w !! u = Some y →
  let d := fw_description fw u (pc y) webrtc.SDPTypeAnswer in
  let y1 := with_pc (pc y ++ [pc_CreateAnswer]) y in
  let y2 := with_pc (pc y ++ [pc_CreateAnswer; pc_SetLocalDescription d]) y in
  SendAnswer fw u w
  = match fw_error fw u (pc y) pc_CreateAnswer with
    | Some e => Ret (Some e) (upd u y1 w)
    | None =>
        match fw_error fw u (pc y ++ [pc_CreateAnswer]) (pc_SetLocalDescription d) with
        | Some e => Ret (Some e) (upd u y2 w)
        | None => Ret None (upd u (with_send (send y ++ [answerEvent d]) y2) w)
        end
    end.
Proof.
  intros Hy d y1 y2. unfold SendAnswer.
  pose proof (Answer_eq u y w Hy) as HA. cbv zeta in HA. fold d y1 y2 in HA.
  destruct (fw_error fw u (pc y) pc_CreateAnswer) as [e|].
  { by rewrite (bind_Ret _ _ _ _ _ HA). }
  destruct (fw_error fw u (pc y ++ [pc_CreateAnswer]) (pc_SetLocalDescription d))
    as [e|].
  { by rewrite (bind_Ret _ _ _ _ _ HA). }
  rewrite (bind_Ret _ _ _ _ _ HA). cbn [fst snd].
  rewrite (bind_Ret _ _ _ _ _ (SendJSON_eq _ _ _ _ (users_upd _ _ _))).
  by rewrite (sends_eq _ _ _ _ (users_upd _ _ _)), upd_upd.
Qed.

End Answering.

Section HandlingOffers.

Context (fw : Framework).

Lemma HandleOffer_tail (u : Z) (offer : webrtc.SessionDescription)
    (tracks : list webrtc.Track) (l : Line) (x1 : User) (w1 : World) :
  users w1 !! u = Some x1 →
  tracksAccepted fw u →
  ∃ r W x',
    (emit l ;;
     attach fw u tracks ;;
     let* err := call fw u (pc_SetRemoteDescription offer) in
     match err with
     | Some e => ret (Some e)
     | None => SendAnswer fw u
     end) w1 = Ret r W
    ∧ users W !! u = Some x'
    ∧ (∀ v, v ≠ u → users W !! v = users w1 !! v)
    ∧ rooms W = rooms w1
    ∧ answered offer (webrtc.SSRC <$> tracks) r x1 x'
    ∧ ((∀ h c, fw_error fw u h c = None) → r = None).
Proof.
  intros Hx1 Hacc.
  set (ssrcs := webrtc.SSRC <$> tracks).
  set (x2 := attached ssrcs x1).
  set (x3 := with_pc (pc x2 ++ [pc_SetRemoteDescription offer]) x2).
  rewrite (bind_Ret _ _ _ _ _ (emit_eq _ _)).
  rewrite (bind_Ret _ _ _ _ _ (attach_eq fw u tracks Hacc x1 (logs l w1) Hx1)).
  fold ssrcs x2.
  assert (call fw u (pc_SetRemoteDescription offer) (upd u x2 (logs l w1))
          = Ret (fw_error fw u (pc x2) (pc_SetRemoteDescription offer))
                (upd u x3 (logs l w1))) as HR.
  { rewrite (call_eq fw _ _ _ _ (users_upd _ _ _)).
    by rewrite (calls_eq _ _ _ _ (users_upd _ _ _)), upd_upd. }
  rewrite (bind_Ret _ _ _ _ _ HR).
  destruct (fw_error fw u (pc x2) (pc_SetRemoteDescription offer)) as [e|] eqn:He.
  { exists (Some e), (upd u x3 (logs l w1)), x3.
    split; [done|]. split; [apply users_upd|]. split.
    { intros v Hv. by rewrite users_upd_ne. }
    split; [done|]. split; [apply send_attached|].
    intros Hok. by rewrite Hok in He. }
  rewrite (SendAnswer_eq fw u x3 _ (users_upd _ _ _)). cbv zeta.
  set (d := fw_description fw u (pc x3) webrtc.SDPTypeAnswer).
  destruct (fw_error fw u (pc x3) pc_CreateAnswer) as [e|] eqn:Hc.
  { eexists (Some e), _, _. rewrite upd_upd.
    split; [done|]. split; [apply users_upd|]. split.
    { intros v Hv. by rewrite users_upd_ne. }
    split; [done|]. split; [apply send_attached|].
    intros Hok. by rewrite Hok in Hc. }
  destruct (fw_error fw u (pc x3 ++ [pc_CreateAnswer]) (pc_SetLocalDescription d))
    as [e|] eqn:Hl.
  { eexists (Some e), _, _. rewrite upd_upd.
    split; [done|]. split; [apply users_upd|]. split.
    { intros v Hv. by rewrite users_upd_ne. }
    split; [done|]. split; [apply send_attached|].
    intros Hok. by rewrite Hok in Hl. }
  eexists None, _, _. rewrite upd_upd.
  split; [done|]. split; [apply users_upd|]. split.
  { intros v Hv. by rewrite users_upd_ne. }
  split; [done|]. split; [|done].
  exists d. cbn [send pc outTracks with_send with_pc]. unfold x3, x2.
  cbn [send pc outTracks with_send with_pc].
  split; [by rewrite send_attached|]. split; [|done].
  rewrite pc_attached. by rewrite <- !app_assoc.
Qed.

Lemma HandleOffer_result (u : Z) (x : User) (offer : webrtc.SessionDescription)
    (w : World) :
  users w !! u = Some x →
  supportOpus fw offer = true →
  membersLive (room x) w →
  tracksAccepted fw u →
  let tracks := omap (λ i, users w !! i ≫= inTrack)
                  (elements (Room.members (room x) w)) in
  let x1 := match tracks with
            | [] => with_pc (pc x ++ [pc_AddTransceiver webrtc.RTPCodecTypeAudio
                                        webrtc.RTPTransceiverDirectionRecvonly]) x
            | _ => x
            end in
  ∃ r W x',
    HandleOffer fw u offer w = Ret r W
    ∧ users W !! u = Some x'
    ∧ (∀ v, v ≠ u → users W !! v = users w !! v)
    ∧ rooms W = rooms w
    ∧ match r with
      | Some _ => send x' = send x
      | None => answered offer (webrtc.SSRC <$> tracks) None x1 x'
      end
    ∧ ((∀ h c, fw_error fw u h c = None) → r = None).
Proof.
  intros Hx Hopus Hlive Hacc tracks x1. unfold HandleOffer. rewrite Hopus.
  rewrite (bind_Ret _ _ _ _ _ (GetRoomTracks_eq u x w Hx Hlive)). fold tracks.
  set (c := pc_AddTransceiver webrtc.RTPCodecTypeAudio
              webrtc.RTPTransceiverDirectionRecvonly).
  set (l := OutLine [Str "attach "; Num (Z.of_nat (length tracks));
                     Str "tracks to new user"]).
  destruct tracks as [|t tracks'] eqn:Ht.
  - (* nobody has published: the transceiver first *)
    change (Nat.eqb (length (@nil webrtc.Track)) 0) with true. cbv iota.
    rewrite (bind_Ret _ _ _ _ _ (call_eq fw u x c w Hx)).
    rewrite (calls_eq _ _ _ _ Hx). fold x1.
    destruct (fw_error fw u (pc x) c) as [e|] eqn:He.
    { exists (Some e), (upd u x1 w), x1.
      split; [done|]. split; [apply users_upd|]. split.
      { intros v Hv. by rewrite users_upd_ne. }
      split; [done|]. split; [done|]. intros Hok. by rewrite Hok in He. }
    destruct (HandleOffer_tail u offer [] l x1 (upd u x1 w) (users_upd _ _ _) Hacc)
      as (r & W & x' & Hrun & Hx' & Hoth & Hr & Hans & Hok).
    exists r, W, x'. split; [exact Hrun|]. split; [done|]. split.
    { intros v Hv. rewrite (Hoth v Hv). by rewrite users_upd_ne. }
    split; [done|]. split; [|done].
    destruct r; [|done]. simpl in Hans. by rewrite Hans.
  - change (Nat.eqb (length (t :: tracks')) 0) with false. cbv iota.
    rewrite (bind_Ret _ _ _ _ _ (eq_refl : ret None w = Ret None w)).
    destruct (HandleOffer_tail u offer (t :: tracks') l x w Hx Hacc)
      as (r & W & x' & Hrun & Hx' & Hoth & Hr & Hans & Hok).
    exists r, W, x'. split; [exact Hrun|]. split; [done|]. split; [done|].
    split; [done|]. split; [|done]. by destruct r.
Qed.

(** X15: when the framework accepts every call, an offer with OPUS is
    answered: first a receive-only audio transceiver if no member of the
    room has published, then one outbound track for every inbound track
    in the room, keyed by its stream identifier, then the remote
    description, then the answer is created, set as local description
    and put on the send channel; the other users are untouched. *)
Theorem HandleOffer_answers (u : Z) (x : User) (offer : webrtc.SessionDescription)
    (w : World) :
  users w !! u = Some x →
  supportOpus fw offer = true →
  membersLive (room x) w →
  (∀ h c, fw_error fw u h c = None) →
  let tracks := omap (λ i, users w !! i ≫= inTrack)
                  (elements (Room.members (room x) w)) in
  ∃ W x' d,
    HandleOffer fw u offer w = Ret None W
    ∧ users W !! u = Some x'
    ∧ send x' = send x ++ [answerEvent d]
    ∧ pc x' = pc x
              ++ match tracks with
                 | [] => [pc_AddTransceiver webrtc.RTPCodecTypeAudio
                            webrtc.RTPTransceiverDirectionRecvonly]
                 | _ => []
                 end
              ++ flat_map (λ t, [newTrackCall (webrtc.SSRC t);
                                 pc_AddTrack (pionTrack (webrtc.SSRC t))]) tracks
              ++ [pc_SetRemoteDescription offer; pc_CreateAnswer;
                  pc_SetLocalDescription d]
    ∧ (∀ A a t, A ∈ Room.members (room x) w → users w !! A = Some a →
                inTrack a = Some t →
                outTracks x' !! webrtc.SSRC t = Some (pionTrack (webrtc.SSRC t)))
    ∧ (∀ k, k ∉ webrtc.SSRC <$> tracks → outTracks x' !! k = outTracks x !! k)
    ∧ (∀ v, v ≠ u → users W !! v = users w !! v).
Proof.
  intros Hx Hopus Hlive Hok tracks.
  assert (tracksAccepted fw u) as Hacc by (intros h ssrc; split; apply Hok).
  destruct (HandleOffer_result u x offer w Hx Hopus Hlive Hacc)
    as (r & W & x' & Hrun & Hx' & Hoth & _ & Hans & Hnone).
  rewrite (Hnone Hok) in *. fold tracks in Hans.
  destruct Hans as (d & Hsend & Hpc & Hout).
  exists W, x', d. split; [done|]. split; [done|].
  assert (∀ k, outTracks x' !! k
               = outTracks (attached (webrtc.SSRC <$> tracks) x) !! k) as Hlk.
  { intros k. rewrite Hout. by destruct tracks. }
  split; [|split; [|split; [|split; [|done]]]].
  - rewrite Hsend. by destruct tracks.
  - rewrite Hpc.
    assert (flat_map (λ s, [newTrackCall s; pc_AddTrack (pionTrack s)])
              (webrtc.SSRC <$> tracks)
            = flat_map (λ t, [newTrackCall (webrtc.SSRC t);
                              pc_AddTrack (pionTrack (webrtc.SSRC t))]) tracks) as ->.
    { generalize tracks. intros ts. induction ts as [|t ts IH]; [done|].
      rewrite fmap_cons. cbn [flat_map]. by rewrite IH. }
    destruct tracks; simpl; [|done]. by rewrite <- app_assoc.
  - intros A a t HA Ha Ht. rewrite Hlk. apply outTracks_attached_in.
    apply list_elem_of_fmap. exists t. split; [done|].
    apply list_elem_of_omap. exists A. split; [by apply elem_of_elements|].
    by rewrite Ha.
  - intros k Hk. rewrite Hlk. by apply outTracks_attached_notin.
Qed.

(** X16: as long as the framework does not refuse a track, every offer
    that carries a description gets exactly one reply on the send
    channel, an answer or an error, and the other users are untouched. *)
Theorem offer_gets_one_reply (u : Z) (x : User) (ev : Event)
    (offer : webrtc.SessionDescription) (w : World) :
  users w !! u = Some x →
  Type_ ev = "offer" → Offer_ ev = Some offer →
  membersLive (room x) w →
  tracksAccepted fw u →
  ∃ W x' reply,
    handleMessage fw u (UnmarshalEvent ev) w = Ret tt W
    ∧ users W !! u = Some x'
    ∧ send x' = send x ++ [reply]
    ∧ (Type_ reply = "answer" ∨ Type_ reply = "error")
    ∧ (∀ v, v ≠ u → users W !! v = users w !! v).
Proof.
  intros Hx Hty Hoff Hlive Hacc.
  set (w0 := logs (handled ev) w).
  assert (HandleEvent fw u (UnmarshalEvent ev) w = HandleOffer fw u offer w0) as HE.
  { unfold HandleEvent.
    rewrite (bind_Ret _ _ _ _ _ (emit_eq _ _)), Hoff.
    apply String.eqb_eq in Hty. by rewrite Hty. }
  assert (∀ e W1 x1, HandleOffer fw u offer w0 = Ret (Some e) W1 →
            users W1 !! u = Some x1 → send x1 = send x →
            (∀ v, v ≠ u → users W1 !! v = users w !! v) →
            ∃ W x' reply,
              handleMessage fw u (UnmarshalEvent ev) w = Ret tt W
              ∧ users W !! u = Some x'
              ∧ send x' = send x ++ [reply]
              ∧ (Type_ reply = "answer" ∨ Type_ reply = "error")
              ∧ (∀ v, v ≠ u → users W !! v = users w !! v)) as Herr.
  { intros e W1 x1 HO Hx1 Hs Hoth.
    exists (sends u (errorEvent e) (logs (LogLine [Str (Sprint e)]) W1)),
           (with_send (send x1 ++ [errorEvent e]) x1), (errorEvent e).
    split.
    { rewrite <- HE in HO.
      unfold handleMessage. rewrite (bind_Ret _ _ _ _ _ HO).
      rewrite (bind_Ret _ _ _ _ _ (emit_eq _ _)).
      by rewrite (bind_Ret _ _ _ _ _ (SendErr_eq u x1 _ (logs _ W1) Hx1)). }
    split; [by apply (users_sends u x1 _ (logs _ W1))|].
    split; [simpl; by rewrite Hs|]. split; [by right|].
    intros v Hv. unfold sends. simpl. rewrite lookup_alter_ne by done. by apply Hoth. }
  destruct (supportOpus fw offer) eqn:Hopus.
  - destruct (HandleOffer_result u x offer w0 Hx Hopus Hlive Hacc)
      as (r & W & x' & Hrun & Hx' & Hoth & _ & Hans & _).
    destruct r as [e|]; [by apply (Herr e W x')|].
    destruct Hans as (d & Hsend & _).
    exists W, x', (answerEvent d).
    rewrite <- HE in Hrun.
    split; [unfold handleMessage; by rewrite (bind_Ret _ _ _ _ _ Hrun)|].
    split; [done|]. split; [|split; [by left|done]].
    rewrite Hsend. by destruct (omap _ _).
  - apply (Herr errNoOpus w0 x); [|done..].
    unfold HandleOffer. by rewrite Hopus.
Qed.

(** X17: unlike [SendOffer], [SendAnswer] gives up when the answer cannot
    be created or set as local description: it returns the framework's
    error and puts nothing on the send channel. *)
Theorem SendAnswer_returns_error (u : Z) (y : User) (w : World) :
  users w !! u = Some y →
  is_Some (fw_error fw u (pc y) pc_CreateAnswer)
  ∨ is_Some (fw_error fw u (pc y ++ [pc_CreateAnswer])
               (pc_SetLocalDescription (fw_description fw u (pc y) webrtc.SDPTypeAnswer))) →
  ∃ e W, SendAnswer fw u w = Ret (Some e) W
         ∧ send <$> users W !! u = Some (send y).
Proof.
  intros Hy Hfail. rewrite (SendAnswer_eq fw u y w Hy). cbv zeta.
  destruct (fw_error fw u (pc y) pc_CreateAnswer) as [e|].
  { eexists _, _. split; [done|]. by rewrite users_upd. }
  destruct Hfail as [[? [=]]|[e He]]. rewrite He.
  eexists _, _. split; [done|]. by rewrite users_upd.
Qed.

End HandlingOffers.

Lemma HandleOffer_answers_witness :
  ∃ W x', HandleOffer Sample.reliable 2 Sample.opusOffer Sample.published = Ret None W
          ∧ users W !! 2%Z = Some x'
          ∧ outTracks x' !! 7000%N = Some (pionTrack 7000).
Proof.
  destruct (HandleOffer_answers Sample.reliable 2
              (with_outTracks {[ 7000%N := Sample.local 7000 ]} (Sample.newUser 2 "r1"))
              Sample.opusOffer Sample.published)
    as (W & x' & d & Hrun & Hx' & _ & _ & Hin & _).
  - reflexivity.
  - reflexivity.
  - unfold membersLive. apply (bool_decide_unpack _). vm_compute. exact I.
  - intros h c. reflexivity.
  - exists W, x'. split; [done|]. split; [done|].
    apply (Hin 1%Z (with_inTrack (Some (Sample.remote 7000)) (Sample.newUser 1 "r1"))
             (Sample.remote 7000)); reflexivity.
Defined.

Lemma offer_gets_one_reply_witness :
  ∃ W x' reply,
    handleMessage Scenario.unanswering 2
      (UnmarshalEvent (offerEvent Sample.opusOffer)) Sample.fresh = Ret tt W
    ∧ users W !! 2%Z = Some x'
    ∧ send x' = [] ++ [reply]
    ∧ (Type_ reply = "answer" ∨ Type_ reply = "error")
    ∧ (∀ v, v ≠ 2%Z → users W !! v = users Sample.fresh !! v).
Proof.
  apply (offer_gets_one_reply Scenario.unanswering 2 (Sample.newUser 2 "r1")
           (offerEvent Sample.opusOffer) Sample.opusOffer Sample.fresh).
  - reflexivity.
  - reflexivity.
  - reflexivity.
  - unfold membersLive. apply (bool_decide_unpack _). vm_compute. exact I.
  - intros h ssrc. split; reflexivity.
Defined.

Lemma SendAnswer_returns_error_witness :
  ∃ e W, SendAnswer Scenario.unanswering 2 Sample.fresh = Ret (Some e) W
         ∧ send <$> users W !! 2%Z = Some [].
Proof.
  apply (SendAnswer_returns_error Scenario.unanswering 2 (Sample.newUser 2 "r1")
           Sample.fresh).
  - reflexivity.
  - left. eexists. reflexivity.
Defined.

(** ** Forwarding, end to end *)

Lemma with_pc_id x : with_pc (pc x) x = x.
Proof. by destruct x. Qed.

Section EndToEnd.

Context (fw : Framework).

Lemma broadcastOne_frame (u : Z) (x : User) (pkt : rtp.Packet)
    (queue : list rtp.Packet) (w : World) :
  users w !! u = Some x →
  rtpCh x = pkt :: queue →
  membersLive (room x) w →
  ∃ w', broadcastOne fw u w = Ret Returned w'
        ∧ rooms w' = rooms w
        ∧ users w' !! u = Some (with_rtpCh queue x)
        ∧ membersLive (room x) w'
        ∧ (∀ s y, s ∈ Room.members (room x) w → s ≠ u →
                  users w !! s = Some y → forwarded fw pkt w' s y)
        ∧ (∀ v, v ∉ Room.members (room x) w → v ≠ u → users w' !! v = users w !! v).
Proof.
  intros Hx Hq Hlive.
  destruct (broadcastOne_forwards fw u x pkt queue w Hx Hq Hlive)
    as (w' & Hone & Hr & Hu & Hothers).
  exists w'. split; [done|]. split; [done|]. split; [done|]. split; [|split; [done|]].
  - intros s Hs.
    assert (s ∈ Room.members (room x) w) as Hs'.
    { unfold Room.members in *. by rewrite <- Hr. }
    destruct (decide (s = u)) as [->|Hne]; [by rewrite Hu|].
    destruct (Hlive s Hs') as [y Hy].
    by eapply forwarded_live, Hothers.
  - (* the same run, followed outside the room *)
    set (w0 := upd u (with_rtpCh queue x) w).
    set (snapshot := elements (Room.members (room x) w ∖ {[u]})).
    destruct (forward_all fw pkt snapshot w0) as (w2 & Hfw & _ & _ & Hout & _).
    { apply NoDup_elements. }
    { intros s Hs. apply elem_of_elements, elem_of_difference in Hs as [Hs Hne].
      unfold w0. rewrite users_upd_ne; [by apply Hlive|].
      intros ->. apply Hne. by apply elem_of_singleton. }
    assert (broadcastOne fw u w = Ret Returned w2) as Hone2.
    { unfold broadcastOne.
      assert (ReadRTP u w = Ret (Some (Some pkt, None)) w0) as Hread.
      { unfold ReadRTP. rewrite (bind_Ret _ _ _ _ _ (deref_eq _ _ _ Hx)), Hq.
        by rewrite (bind_Ret _ _ _ _ _ (modify_eq _ _ _ _ Hx)). }
      rewrite (bind_Ret _ _ _ _ _ Hread). cbv beta iota.
      rewrite (bind_Ret _ _ _ _ _ (deref_eq u _ w0 (users_upd _ _ _))).
      assert (Room.GetOtherUsers (room x) u w0 = Ret snapshot w0) as Hsnap by done.
      rewrite (bind_Ret _ _ _ _ _ Hsnap).
      by rewrite (bind_Ret _ _ _ _ _ Hfw). }
    assert (w2 = w') as -> by congruence.
    intros v Hv Hne. rewrite Hout.
    + unfold w0. by rewrite users_upd_ne.
    + intros Hin. apply elem_of_elements, elem_of_difference in Hin as [Hin _]. done.
Qed.

Lemma forwarder_in_order (u B : Z) (ssrc : N) (track : webrtc.Track)
    (pkts : list rtp.Packet) :
  ∀ (x y : User) (w : World),
  users w !! u = Some x →
  rtpCh x = pkts →
  rtpChClosed x = false →
  membersLive (room x) w →
  B ∈ Room.members (room x) w → B ≠ u →
  users w !! B = Some y →
  outTracks y !! ssrc = Some track →
  Forall (λ p, rtp.SSRC p = ssrc) pkts →
  ∃ w', broadcastIncomingRTP fw (S (length pkts)) u w = Ret Waiting w'
        ∧ users w' !! B = Some (with_pc (pc y ++ (track_WriteRTP track <$> pkts)) y)
        ∧ users w' !! u = Some (with_rtpCh [] x).
Proof.
  induction pkts as [|p pkts IH];
    intros x y w Hx Hq Hopen Hlive HB Hne Hy Ht Hall.
  - exists w. split; [|split].
    + simpl. unfold broadcastOne, ReadRTP.
      unfold bind at 1. unfold bind at 1. unfold bind at 1.
      by rewrite (deref_eq _ _ _ Hx), Hq, Hopen.
    + by rewrite Hy, app_nil_r, with_pc_id.
    + rewrite Hx. f_equal. destruct x. simpl in *. by subst.
  - apply Forall_cons in Hall as [Hp Hall].
    destruct (broadcastOne_frame u x p pkts w Hx Hq Hlive)
      as (w1 & Hone & Hr & Hu & Hlive1 & Hothers & _).
    pose proof (Hothers B y HB Hne Hy) as HfB. unfold forwarded in HfB.
    rewrite Hp, Ht in HfB. destruct HfB as [HB1 _].
    destruct (IH (with_rtpCh pkts x) (with_pc (pc y ++ [track_WriteRTP track p]) y) w1)
      as (w' & Hrun & HB' & Hu'); try done.
    { unfold Room.members in *. by rewrite Hr. }
    exists w'. split; [|split; [|done]].
    + change (broadcastIncomingRTP fw (S (length (p :: pkts))) u w)
        with (bind (broadcastOne fw u)
                (λ r, match r with
                      | Waiting => ret Waiting
                      | Returned => broadcastIncomingRTP fw (S (length pkts)) u
                      end) w).
      by rewrite (bind_Ret _ _ _ _ _ Hone).
    + rewrite HB'. simpl. by rewrite <- app_assoc.
Qed.

(** X18: the packets the reader takes from the inbound track reach a
    subscriber's track in the order read, each as it is: after the reader
    has put them on the packet channel behind what was waiting there, as
    many turns of the forwarder as there are packets give the subscriber's
    track exactly these packets, in order, and leave the forwarder
    waiting on the empty channel. *)
Theorem inTrack_to_outTrack_in_order (u B : Z) (ssrc : N) (track : webrtc.Track)
    (pkts : list rtp.Packet) (x y : User) (w : World) :
  users w !! u = Some x →
  rtpChClosed x = false →
  membersLive (room x) w →
  B ∈ Room.members (room x) w → B ≠ u →
  users w !! B = Some y →
  outTracks y !! ssrc = Some track →
  Forall (λ p, rtp.SSRC p = ssrc) (rtpCh x ++ pkts) →
  ∃ w1 w',
    receiveInTrackRTP u (map ReadPacket pkts) w = Ret Waiting w1
    ∧ broadcastIncomingRTP fw (S (length (rtpCh x ++ pkts))) u w1 = Ret Waiting w'
    ∧ users w' !! B
      = Some (with_pc (pc y ++ (track_WriteRTP track <$> rtpCh x ++ pkts)) y)
    ∧ users w' !! u = Some (with_rtpCh [] x).
Proof.
  intros Hx Hopen Hlive HB Hne Hy Ht Hall.
  exists (enqueues u pkts w).
  pose proof (receiveInTrackRTP_packets u pkts [] x w Hx) as Hrecv.
  rewrite app_nil_r in Hrecv.
  rewrite (enqueues_eq _ _ _ _ Hx) in *.
  destruct (forwarder_in_order u B ssrc track (rtpCh x ++ pkts)
              (with_rtpCh (rtpCh x ++ pkts) x) y
              (upd u (with_rtpCh (rtpCh x ++ pkts) x) w))
    as (w' & Hrun & HB' & Hu'); try done.
  - apply users_upd.
  - intros s Hs. simpl in Hs.
    destruct (decide (s = u)) as [->|Hsu]; [by rewrite users_upd|].
    rewrite users_upd_ne by done. by apply Hlive.
  - by rewrite users_upd_ne.
  - by exists w'.
Qed.

End EndToEnd.

Lemma inTrack_to_outTrack_in_order_witness :
  ∃ w1 w',
    receiveInTrackRTP 1 (map ReadPacket [Sample.packet 7000 3]) Scenario.twoRooms
    = Ret Waiting w1
    ∧ broadcastIncomingRTP Sample.reliable 4 1 w1 = Ret Waiting w'
    ∧ (pc <$> users w' !! 2%Z)
      = Some [track_WriteRTP (pionTrack 7000) (Sample.packet 7000 1);
              track_WriteRTP (pionTrack 7000) (Sample.packet 7000 2);
              track_WriteRTP (pionTrack 7000) (Sample.packet 7000 3)].
Proof.
  destruct (inTrack_to_outTrack_in_order Sample.reliable 1 2 7000 (pionTrack 7000)
              [Sample.packet 7000 3]
              (with_rtpCh [Sample.packet 7000 1; Sample.packet 7000 2]
                 (with_inTrack (Some (Sample.remote 7000)) (Sample.newUser 1 "r1")))
              (with_outTracks {[ 7000%N := pionTrack 7000 ]} (Sample.newUser 2 "r1"))
              Scenario.twoRooms) as (w1 & w' & Hrecv & Hrun & HB & _).
  - reflexivity.
  - reflexivity.
  - unfold membersLive. apply (bool_decide_unpack _). vm_compute. exact I.
  - reflexivity.
  - discriminate.
  - reflexivity.
  - reflexivity.
  - repeat constructor.
  - exists w1, w'. split; [done|]. split; [done|]. by rewrite HB.
Defined.

(** ** Whom a handler touches *)

Lemma only_ret {A} S (a : A) : only S (ret a).
Proof. by intros w v Hv. Qed.

Lemma only_panic {A} S (e : error) : only S (@panic A e).
Proof. by intros w v Hv. Qed.

Lemma only_emit S l : only S (emit l).
Proof. by intros w v Hv. Qed.

Lemma only_deref S u : only S (deref u).
Proof. intros w v Hv. unfold deref. by destruct (users w !! u). Qed.

Lemma only_GetUsers S r : only S (Room.GetUsers r).
Proof. by intros w v Hv. Qed.

Lemma only_GetOtherUsers S r u : only S (Room.GetOtherUsers r u).
Proof. by intros w v Hv. Qed.

Lemma only_bind {A B} S (m : Proc A) (k : A → Proc B) :
  only S m → (∀ a, only S (k a)) → only S (bind m k).
Proof.
  intros Hm Hk w v Hv. unfold bind. specialize (Hm w v Hv).
  destruct (m w) as [a w'|e w'|w']; simpl in *; [|done..].
  by rewrite (Hk a w' v Hv).
Qed.

Lemma only_modify (S : Z → Prop) u f : S u → only S (modify u f).
Proof.
  intros Hu w v Hv. unfold modify, bind, deref.
  destruct (users w !! u) as [x|]; simpl; [|done].
  apply lookup_insert_ne. intros ->. done.
Qed.

Lemma only_weaken {A} (S T : Z → Prop) (m : Proc A) :
  (∀ v, S v → T v) → only S m → only T m.
Proof. intros HST Hm w v Hv. apply Hm. intros Hs. by apply Hv, HST. Qed.

(** one step of a proof that a handler touches only [S] *)
Ltac only_step :=
  lazymatch goal with
  | |- only _ (bind _ _) => apply only_bind; [|intros ?]
  | |- only _ (ret _) => apply only_ret
  | |- only _ (panic _) => apply only_panic
  | |- only _ (emit _) => apply only_emit
  | |- only _ (deref _) => apply only_deref
  | |- only _ (modify _ _) => apply only_modify; done
  | |- only _ (Room.GetUsers _) => apply only_GetUsers
  | |- only _ (Room.GetOtherUsers _ _) => apply only_GetOtherUsers
  | |- only _ (if ?b then _ else _) => destruct b
  | |- only _ (match ?o with _ => _ end) => destruct o
  end.

Section Only.

Context (fw : Framework) (S : Z → Prop).

Lemma only_call u c : S u → only S (call fw u c).
Proof. intros Hu. unfold call. repeat only_step. Qed.

Lemma only_SendJSON u ev : S u → only S (SendJSON u ev).
Proof. intros Hu. unfold SendJSON. repeat only_step. Qed.

Lemma only_create u c ty : S u → only S (create fw u c ty).
Proof. intros Hu. unfold create. repeat only_step. by apply only_call. Qed.

Lemma only_AddTrack u ssrc : S u → only S (AddTrack fw u ssrc).
Proof.
  intros Hu. unfold AddTrack, NewTrack.
  apply only_bind; [apply only_bind; [by apply only_call|intros; apply only_ret]|].
  intros r. destruct (r.2); [apply only_ret|]. cbv zeta.
  apply only_bind; [by apply only_call|]. intros [e|]; repeat only_step.
Qed.

Lemma only_Offer u : S u → only S (Offer fw u).
Proof.
  intros Hu. unfold Offer. apply only_bind; [by apply only_create|]. intros r.
  destruct (r.2); [apply only_ret|].
  apply only_bind; [by apply only_call|]. intros [e|]; apply only_ret.
Qed.

Lemma only_SendOffer u : S u → only S (SendOffer fw u).
Proof.
  intros Hu. unfold SendOffer. apply only_bind; [by apply only_Offer|]. intros r.
  cbv zeta. apply only_bind; [by apply only_SendJSON|]. intros [e|]; repeat only_step.
Qed.

Lemma only_Answer u : S u → only S (Answer fw u).
Proof.
  intros Hu. unfold Answer. apply only_bind; [by apply only_create|]. intros r.
  destruct (r.2); [apply only_ret|].
  apply only_bind; [by apply only_call|]. intros [e|]; apply only_ret.
Qed.

Lemma only_SendAnswer u : S u → only S (SendAnswer fw u).
Proof.
  intros Hu. unfold SendAnswer. apply only_bind; [by apply only_Answer|]. intros r.
  destruct (r.2); [apply only_ret|].
  apply only_bind; [by apply only_SendJSON|]. intros; apply only_ret.
Qed.

Lemma only_inTracks l : only S (inTracks l).
Proof. induction l as [|i l IH]; simpl; repeat only_step. apply IH. Qed.

Lemma only_attach u tracks : S u → only S (attach fw u tracks).
Proof.
  intros Hu. induction tracks as [|t tracks IH]; simpl; [apply only_ret|].
  apply only_bind; [by apply only_AddTrack|]. intros [e|]; [|apply IH].
  repeat only_step.
Qed.

Lemma only_HandleOffer u offer : S u → only S (HandleOffer fw u offer).
Proof.
  intros Hu. unfold HandleOffer. destruct (supportOpus fw offer); [|apply only_ret].
  apply only_bind.
  { unfold GetRoomTracks. repeat only_step. apply only_inTracks. }
  intros tracks. apply only_bind.
  { destruct (Nat.eqb _ _); [by apply only_call|apply only_ret]. }
  intros [e|]; [apply only_ret|].
  apply only_bind; [apply only_emit|]. intros _.
  apply only_bind; [by apply only_attach|]. intros _.
  apply only_bind; [by apply only_call|]. intros [e|]; [apply only_ret|].
  by apply only_SendAnswer.
Qed.

Lemma only_HandleEvent u m : S u → only S (HandleEvent fw u m).
Proof.
  intros Hu. unfold HandleEvent.
  destruct m as [e| |ev]; [apply only_ret|apply only_panic|].
  apply only_bind; [apply only_emit|]. intros _.
  destruct (String.eqb _ _).
  { destruct (Offer_ ev); [by apply only_HandleOffer|by apply only_SendJSON]. }
  destruct (String.eqb _ _).
  { destruct (Answer_ ev); [|by apply only_SendJSON].
    apply only_bind; [by apply only_call|]. intros; apply only_ret. }
  destruct (String.eqb _ _); [|by apply only_SendJSON].
  destruct (Candidate_ ev); [|by apply only_SendJSON].
  apply only_bind; [apply only_emit|]. intros _.
  apply only_bind; [by apply only_call|]. intros; apply only_ret.
Qed.

Lemma only_handleMessage u m : S u → only S (handleMessage fw u m).
Proof.
  intros Hu. unfold handleMessage. apply only_bind; [by apply only_HandleEvent|].
  intros [e|]; [|apply only_ret].
  apply only_bind; [apply only_emit|]. intros _.
  apply only_bind; [by apply only_SendJSON|]. intros; apply only_ret.
Qed.

Lemma only_WriteRTP u pkt : S u → only S (WriteRTP fw u pkt).
Proof.
  intros Hu. unfold WriteRTP. destruct pkt as [p|]; [|apply only_ret].
  apply only_bind; [apply only_deref|]. intros x.
  destruct (outTracks x !! _); [by apply only_call|]. repeat only_step.
Qed.

Lemma only_forward l pkt : (∀ s, s ∈ l → S s) → only S (forward fw l pkt).
Proof.
  induction l as [|s l IH]; intros Hl; simpl; [apply only_ret|].
  apply only_bind; [apply only_WriteRTP, Hl; by left|]. intros err.
  apply only_bind; [destruct err; [apply only_emit|apply only_ret]|].
  intros _. apply IH. intros s' Hs'. apply Hl. by right.
Qed.

Lemma only_renegotiate l ssrc : (∀ s, s ∈ l → S s) → only S (renegotiate fw l ssrc).
Proof.
  induction l as [|B l IH]; intros Hl; simpl; [apply only_ret|].
  apply only_bind; [apply only_AddTrack, Hl; by left|].
  intros [e|]; [apply only_panic|].
  apply only_bind; [apply only_SendOffer, Hl; by left|].
  intros [e|]; [apply only_panic|].
  apply IH. intros s' Hs'. apply Hl. by right.
Qed.

End Only.

(** X20: whatever a user sends and however its handling ends, no other
    user's state changes: signaling of one participant never reaches into
    another's queues, connection or tracks. *)
Theorem handleMessage_touches_only_sender (fw : Framework) (u v : Z)
    (message : Unmarshalled) (w : World) :
  v ≠ u →
  users (final (handleMessage fw u message w)) !! v = users w !! v.
Proof.
  intros Hv. apply (only_handleMessage fw (λ s, s = u) u message eq_refl). done.
Qed.

Lemma handleMessage_touches_only_sender_witness :
  users (final (handleMessage Sample.reliable 1
                  (UnmarshalEvent (offerEvent Sample.opusOffer)) Sample.published)) !! 2%Z
  = users Sample.published !! 2%Z.
Proof.
  apply (handleMessage_touches_only_sender Sample.reliable 1 2). discriminate.
Defined.

Section Rooms.

Context (fw : Framework).

Lemma broadcastOne_outside (u v : Z) (x : User) (w : World) :
  users w !! u = Some x →
  v ∉ Room.members (room x) w → v ≠ u →
  users (final (broadcastOne fw u w)) !! v = users w !! v.
Proof.
  intros Hx Hv Hne. unfold broadcastOne.
  destruct (rtpCh x) as [|pkt queue] eqn:Hq.
  { assert (ReadRTP u w = Ret (if rtpChClosed x
                               then Some (None, Some errChanClosed) else None) w) as Hread.
    { unfold ReadRTP. rewrite (bind_Ret _ _ _ _ _ (deref_eq _ _ _ Hx)), Hq.
      by destruct (rtpChClosed x). }
    rewrite (bind_Ret _ _ _ _ _ Hread). by destruct (rtpChClosed x). }
  assert (ReadRTP u w = Ret (Some (Some pkt, None)) (upd u (with_rtpCh queue x) w))
    as Hread.
  { unfold ReadRTP. rewrite (bind_Ret _ _ _ _ _ (deref_eq _ _ _ Hx)), Hq.
    by rewrite (bind_Ret _ _ _ _ _ (modify_eq _ _ _ _ Hx)). }
  rewrite (bind_Ret _ _ _ _ _ Hread).
  set (w0 := upd u (with_rtpCh queue x) w). cbv beta iota.
  rewrite (bind_Ret _ _ _ _ _ (deref_eq u _ w0 (users_upd _ _ _))).
  assert (Room.GetOtherUsers (room x) u w0
          = Ret (elements (Room.members (room x) w ∖ {[u]})) w0) as Hsnap by done.
  rewrite (bind_Ret _ _ _ _ _ Hsnap).
  assert (only (λ s, s ∈ Room.members (room x) w)
            (forward fw (elements (Room.members (room x) w ∖ {[u]})) (Some pkt) ;;
             ret Returned)) as Honly.
  { apply only_bind; [|intros; apply only_ret].
    apply only_forward. intros s Hs.
    by apply elem_of_elements, elem_of_difference in Hs as [Hs _]. }
  rewrite (Honly w0 v Hv). unfold w0. by rewrite users_upd_ne.
Qed.

(** X19: the forwarder of a user never touches a user outside that
    user's room, for any number of turns and however it ends: packets do
    not cross from one room into another. *)
Theorem broadcastIncomingRTP_stays_in_room (u v : Z) (turns : nat) :
  ∀ (x : User) (w : World),
  users w !! u = Some x →
  v ∉ Room.members (room x) w → v ≠ u →
  users (final (broadcastIncomingRTP fw turns u w)) !! v = users w !! v.
Proof.
  induction turns as [|n IH]; intros x w Hx Hv Hne; [done|]. simpl.
  pose proof (broadcastOne_outside u v x w Hx Hv Hne) as Hout.
  pose proof (steady_broadcastOne fw u w) as (Hr & _ & Hu).
  specialize (Hu u). rewrite Hx in Hu. destruct Hu as (x1 & Hx1 & Hk).
  unfold bind.
  destruct (broadcastOne fw u w) as [[|] w1|e w1|w1]; simpl in *; try done.
  destruct Hk as (_ & Hroom & _).
  rewrite (IH x1 w1 Hx1); [done| |done].
  rewrite Hroom. unfold Room.members in *. by rewrite Hr.
Qed.

(** X21: the [OnTrack] handler of a user never touches a user outside
    that user's room, also when it panics: a publication provisions no
    track and sends no offer in another room. *)
Theorem OnTrack_stays_in_room (user v : Z) (x : User) (remoteTrack : webrtc.Track)
    (w : World) :
  users w !! user = Some x →
  v ∉ Room.members (room x) w → v ≠ user →
  users (final (OnTrack fw user remoteTrack w)) !! v = users w !! v.
Proof.
  intros Hx Hv Hne. unfold OnTrack.
  rewrite (bind_Ret _ _ _ _ _ (deref_eq _ _ _ Hx)).
  rewrite (bind_Ret _ _ _ _ _ (emit_eq _ _)).
  rewrite (bind_Ret _ _ _ _ _ (modify_eq user x _ (logs _ w) Hx)).
  set (w0 := upd user (with_inTrack (Some remoteTrack) x) (logs _ w)).
  assert (Room.GetOtherUsers (room x) user w0
          = Ret (elements (Room.members (room x) w ∖ {[user]})) w0) as Hsnap by done.
  rewrite (bind_Ret _ _ _ _ _ Hsnap).
  match goal with
  | |- users (final (?m w0)) !! v = _ =>
      assert (only (λ s, s ∈ Room.members (room x) w) m) as Honly
  end.
  { apply only_bind; [|intros; apply only_emit].
    apply only_renegotiate. intros s Hs.
    by apply elem_of_elements, elem_of_difference in Hs as [Hs _]. }
  rewrite (Honly w0 v Hv). unfold w0. by rewrite users_upd_ne.
Qed.

(** X22: a user that joins late and offers, in a room where a member has
    published, is subscribed by the answer: when the framework accepts
    every call, [HandleOffer] returns nil and a packet of that member's
    stream is then written to the user's track for it. *)
Theorem late_subscriber_receives (u A : Z) (x a : User) (t : webrtc.Track)
    (offer : webrtc.SessionDescription) (pkt : rtp.Packet) (w : World) :
  users w !! u = Some x →
  supportOpus fw offer = true →
  membersLive (room x) w →
  (∀ h c, fw_error fw u h c = None) →
  A ∈ Room.members (room x) w → users w !! A = Some a → inTrack a = Some t →
  rtp.SSRC pkt = webrtc.SSRC t →
  ∃ W, HandleOffer fw u offer w = Ret None W
       ∧ WriteRTP fw u (Some pkt) W
         = Ret None (calls u (track_WriteRTP (pionTrack (webrtc.SSRC t)) pkt) W).
Proof.
  intros Hx Hopus Hlive Hok HA Ha Ht Hp.
  assert (tracksAccepted fw u) as Hacc by (intros h ssrc; split; apply Hok).
  destruct (HandleOffer_result fw u x offer w Hx Hopus Hlive Hacc)
    as (r & W & x' & Hrun & Hx' & _ & _ & Hans & Hnone).
  rewrite (Hnone Hok) in *. destruct Hans as (d & _ & _ & Hout).
  exists W. split; [done|].
  rewrite (WriteRTP_present fw u x' pkt (pionTrack (webrtc.SSRC t)) W Hx').
  - by rewrite Hok.
  - rewrite Hp, Hout. apply outTracks_attached_in.
    apply list_elem_of_fmap. exists t. split; [done|].
    apply list_elem_of_omap. exists A. split; [by apply elem_of_elements|].
    by rewrite Ha.
Qed.

End Rooms.

Lemma broadcastIncomingRTP_stays_in_room_witness :
  users (final (broadcastIncomingRTP Sample.reliable 5 1 Scenario.twoRooms)) !! 3%Z
  = users Scenario.twoRooms !! 3%Z.
Proof.
  apply (broadcastIncomingRTP_stays_in_room Sample.reliable 1 3 5
           (with_rtpCh [Sample.packet 7000 1; Sample.packet 7000 2]
              (with_inTrack (Some (Sample.remote 7000)) (Sample.newUser 1 "r1")))
           Scenario.twoRooms).
  - reflexivity.
  - apply (bool_decide_unpack _). vm_compute. exact I.
  - discriminate.
Defined.

Lemma OnTrack_stays_in_room_witness :
  users (final (OnTrack Sample.reliable 1 (Sample.remote 7000) Scenario.twoRooms)) !! 4%Z
  = users Scenario.twoRooms !! 4%Z.
Proof.
  apply (OnTrack_stays_in_room Sample.reliable 1 4
           (with_rtpCh [Sample.packet 7000 1; Sample.packet 7000 2]
              (with_inTrack (Some (Sample.remote 7000)) (Sample.newUser 1 "r1")))
           (Sample.remote 7000) Scenario.twoRooms).
  - reflexivity.
  - apply (bool_decide_unpack _). vm_compute. exact I.
  - discriminate.
Defined.

Lemma late_subscriber_receives_witness :
  ∃ W, HandleOffer Sample.reliable 3 Sample.opusOffer Sample.published = Ret None W
       ∧ WriteRTP Sample.reliable 3 (Some (Sample.packet 7000 9)) W
         = Ret None (calls 3 (track_WriteRTP (pionTrack 7000) (Sample.packet 7000 9)) W).
Proof.
  apply (late_subscriber_receives Sample.reliable 3 1
           (with_outTracks {[ 7000%N := Sample.local 7000 ]} (Sample.newUser 3 "r1"))
           (with_inTrack (Some (Sample.remote 7000)) (Sample.newUser 1 "r1"))
           (Sample.remote 7000) Sample.opusOffer (Sample.packet 7000 9) Sample.published).
  - reflexivity.
  - reflexivity.
  - unfold membersLive. apply (bool_decide_unpack _). vm_compute. exact I.
  - intros h c. reflexivity.
  - reflexivity.
  - reflexivity.
  - reflexivity.
  - reflexivity.
Defined.
